(** * legacyproject-related-requests: the related-requests view model

    A shallow embedding of [src/legacyproject-related-requests.js] (the
    LitElement component [LegacyprojectRelatedRequests]) and, in
    [Module Polymer], of the parts of its superseded Polymer revision
    ([src/unnamed/part_000]) that behave differently.

    - JavaScript objects with a known shape are records whose optional
      properties are [option]s ([None] is [undefined]).
    - [PouchDB], [String.prototype.localeCompare] and the event bus are outside
      the repository: the store is a record of operations returning a settled
      promise ([Outcome]), [localeCompare] is a section variable, and dispatched
      events and store calls are appended to a trace kept in the component
      state.
    - An [async] method is a computation in a state-and-rejection monad [M];
      one invocation runs without interleaving. *)

From Stdlib Require Import ZArith Lia String Ascii Sorted.
From Stdlib Require OrderedTypeEx.
From stdpp Require Import base option list strings relations.

Local Open Scope string_scope.
Local Open Scope list_scope.
Local Open Scope Z_scope.

(** ** JavaScript values and built-ins used by the component *)

(** Truthiness of an optional string property: [undefined] and [''] are falsy. *)
Definition truthy (o : option string) : bool :=
  match o with
  | Some s => negb (String.eqb s "")
  | None => false
  end.

(** [o || ''] *)
Definition or_empty (o : option string) : string :=
  if truthy o then default "" o else "".

(** [a > b] and [a < b] on optional numbers: any comparison with [undefined]
    is [false]. *)
Definition js_gt (a b : option Z) : bool :=
  match a, b with
  | Some x, Some y => y <? x
  | _, _ => false
  end.

Definition js_lt (a b : option Z) : bool :=
  match a, b with
  | Some x, Some y => x <? y
  | _, _ => false
  end.

(** [Array.prototype.indexOf] (strict equality), [-1] when absent. *)
Fixpoint Array_indexOf {A} `{EqDecision A} (l : list A) (x : A) : Z :=
  match l with
  | [] => -1
  | y :: l' =>
      if decide (y = x) then 0
      else let i := Array_indexOf l' x in if i =? -1 then -1 else i + 1
  end.

(** [Array.prototype.findIndex], [-1] when no element satisfies [p]. *)
Fixpoint Array_findIndex {A} (p : A -> bool) (l : list A) : Z :=
  match l with
  | [] => -1
  | y :: l' =>
      if p y then 0
      else let i := Array_findIndex p l' in if i =? -1 then -1 else i + 1
  end.

(** [String.prototype.indexOf], [-1] when [needle] does not occur. *)
Definition String_indexOf (s needle : string) : Z :=
  match String.index 0 needle s with
  | Some n => Z.of_nat n
  | None => -1
  end.

(** [Array.prototype.sort(comparefn)].  The engine's algorithm is not part of
    the repository; it is modelled as the stable insertion sort (ECMAScript
    2019 requires a stable sort).  [comparefn a b <= 0] keeps [a] before [b].
    Where the comparator is a total preorder on the list, every stable sort
    returns the same list ([Array_sort_unique]). *)
Fixpoint sort_insert {A} (comparefn : A -> A -> Z) (x : A) (l : list A) : list A :=
  match l with
  | [] => [x]
  | y :: l' =>
      if comparefn x y <=? 0 then x :: y :: l'
      else y :: sort_insert comparefn x l'
  end.

Definition Array_sort {A} (comparefn : A -> A -> Z) (l : list A) : list A :=
  foldr (sort_insert comparefn) [] l.

(** [comparefn] lets [a] stay before [b]. *)
Definition keeps {A} (comparefn : A -> A -> Z) (a b : A) : Prop :=
  comparefn a b <= 0.

(** [a] and [b] are tied: each may stay before the other. *)
Definition tied {A} (comparefn : A -> A -> Z) (a b : A) : bool :=
  (comparefn a b <=? 0) && (comparefn b a <=? 0).

(** ** Data model *)

(** A request document.  [other] holds the properties the component never
    reads ([method], [url], [type], ...). *)
Record Request := mkRequest {
  _id : string;
  _rev : option string;
  name : option string;
  projectOrder : option Z;
  legacyProject : option string;
  projects : option (list string);
  other : list (string * string)
}.

(** A project document: only [requests] is read. *)
Record ProjectDoc := mkProjectDoc {
  requests : option (list string)
}.

(** The reason of a rejected promise: its [message] property and what
    [JSON.stringify] makes of it. *)
Record Cause := mkCause {
  message : option string;
  json : string
}.

Inductive Outcome (A : Type) : Type :=
| Resolved (a : A)
| Rejected (cause : Cause).
Arguments Resolved {A} a.
Arguments Rejected {A} cause.

(** A row of [allDocs()]. *)
Module Row.
Record t := mk { id : string }.
End Row.

(** A row of [allDocs({include_docs: true, keys})]. *)
Module KeyRow.
Record t := mk {
  key : string;
  error : option string;
  doc : option Request
}.
End KeyRow.

(** An [allDocs] response; [rows] is [None] for a malformed response. *)
Record Response (R : Type) := mkResponse {
  rows : option (list R)
}.
Arguments mkResponse {R} rows.
Arguments rows {R} r.

(** The two databases the component opens, as the operations it calls. *)
Record PouchDB := mkPouchDB {
  projectDb_get : string -> Outcome ProjectDoc;
  savedDb_allDocs : Outcome (Response Row.t);
  savedDb_allDocs_keys : list string -> Outcome (Response KeyRow.t);
  savedDb_get : string -> Outcome Request
}.

(** An array together with its identity, for [old === value]. *)
Record JsArray := mkArray {
  arr_ref : nat;
  arr_items : list Request
}.

(** Events the element dispatches. *)
Inductive Event :=
| DataEvent (projectId : option string) (items : JsArray)
| QueryingEvent (value : bool)
| SendAnalytics (description : string).

(** Store operations the element calls. *)
Inductive DbCall :=
| ProjectGet (id : string)
| SavedAllDocs
| SavedAllDocsKeys (keys : list string)
| SavedGet (id : string).

(** The element: its properties, the trace of what it dispatched and called,
    and the next unused array identity. *)
Record State := mkState {
  projectId : option string;
  fullQuery : bool;
  data : option JsArray;
  querying : option bool;
  events : list Event;
  dbcalls : list DbCall;
  next_ref : nat
}.

(** A freshly constructed element. *)
Definition initial : State :=
  {| projectId := None; fullQuery := false; data := None; querying := None;
     events := []; dbcalls := []; next_ref := 0%nat |}.

(** ** Notifications received from the event bus *)

Record CustomEvent (D : Type) := mkEvent {
  cancelable : bool;
  detail : D
}.
Arguments mkEvent {D} cancelable detail.
Arguments cancelable {D} c.
Arguments detail {D} c.

(** [request-object-changed] *)
Module Changed.
Record t := mk { request : Request; oldId : option string }.
End Changed.

(** [request-object-deleted] *)
Module Deleted.
Record t := mk { id : option string }.
End Deleted.

(** [request-objects-deleted] *)
Module BulkDeleted.
Record t := mk { items : option (list string) }.
End BulkDeleted.

(** ** Promises: state passing with rejection *)

Definition M (A : Type) : Type := State -> State * Outcome A.

Definition ret {A} (a : A) : M A := fun st => (st, Resolved a).

Definition throw {A} (cause : Cause) : M A := fun st => (st, Rejected cause).

Definition bind {A B} (m : M A) (k : A -> M B) : M B :=
  fun st =>
    match m st with
    | (st', Resolved a) => k a st'
    | (st', Rejected cause) => (st', Rejected cause)
    end.

(** [try { body } catch (cause) { handler }] *)
Definition try_catch {A} (body : M A) (handler : Cause -> M A) : M A :=
  fun st =>
    match body st with
    | (st', Resolved a) => (st', Resolved a)
    | (st', Rejected cause) => handler cause st'
    end.

#[global] Instance M_ret : MRet M := @ret.
#[global] Instance M_bind : MBind M := fun A B k m => bind m k.

(** Reading [this]. *)
Definition this : M State := fun st => (st, Resolved st).

(** Running a state change that cannot fail. *)
Definition exec (f : State -> State) : M unit := fun st => (f st, Resolved tt).

(** Appending store calls to the trace. *)
Definition with_calls (calls : list DbCall) (st : State) : State :=
  {| projectId := projectId st; fullQuery := fullQuery st; data := data st;
     querying := querying st; events := events st;
     dbcalls := dbcalls st ++ calls; next_ref := next_ref st |}.

(** [await db.op(...)]: the call is recorded and the promise settles. *)
Definition await {A} (call : DbCall) (settled : Outcome A) : M A :=
  fun st => (with_calls [call] st, settled).

(** [Promise.all] over promises that are already issued: the resolved values
    in order, or the first rejection. *)
Fixpoint Promise_all {A} (settled : list (Outcome A)) : Outcome (list A) :=
  match settled with
  | [] => Resolved []
  | Resolved a :: rest =>
      match Promise_all rest with
      | Resolved l => Resolved (a :: l)
      | Rejected cause => Rejected cause
      end
  | Rejected cause :: _ => Rejected cause
  end.

(** [await Promise.all(calls)]: every call is issued, then all are awaited. *)
Definition await_all {A} (calls : list (DbCall * Outcome A)) : M (list A) :=
  fun st =>
    (fold_left (fun st call => fst (await (fst call) (snd call) st)) calls st,
     Promise_all (snd <$> calls)).

(** A [TypeError] thrown by the engine. *)
Definition TypeError (msg : string) : Cause :=
  {| message := Some msg; json := "{}" |}.

(** [dbResponse.rows.filter] and [response.rows.forEach] on a response
    without [rows]. *)
Definition undefined_filter : Cause :=
  TypeError "Cannot read properties of undefined (reading 'filter')".

Definition undefined_forEach : Cause :=
  TypeError "Cannot read properties of undefined (reading 'forEach')".

Definition dquote : string := String (ascii_of_nat 34) EmptyString.

(** [new Error('The "id" argument is missing')] *)
Definition missing_id : Cause :=
  {| message := Some ("The " ++ dquote ++ "id" ++ dquote ++ " argument is missing")%string;
     json := "{}" |}.

(** ** Property setters *)

Definition dispatchEvent (e : Event) (st : State) : State :=
  {| projectId := projectId st; fullQuery := fullQuery st; data := data st;
     querying := querying st; events := events st ++ [e];
     dbcalls := dbcalls st; next_ref := next_ref st |}.

(** [set _querying(value)] *)
Definition set_querying (value : bool) (st : State) : State :=
  if decide (querying st = Some value) then st
  else
    dispatchEvent (QueryingEvent value)
      {| projectId := projectId st; fullQuery := fullQuery st; data := data st;
         querying := Some value; events := events st;
         dbcalls := dbcalls st; next_ref := next_ref st |}.

(** [old === value] on the [data] property. *)
Definition same_array (old : option JsArray) (value : JsArray) : bool :=
  match old with
  | Some a => Nat.eqb (arr_ref a) (arr_ref value)
  | None => false
  end.

(** [set _data(value)] *)
Definition set_data (value : JsArray) (st : State) : State :=
  if same_array (data st) value then st
  else
    dispatchEvent (DataEvent (projectId st) value)
      {| projectId := projectId st; fullQuery := fullQuery st;
         data := Some value; querying := querying st; events := events st;
         dbcalls := dbcalls st; next_ref := next_ref st |}.

(** An array literal, spread or [map] result: a new identity. *)
Definition new_array (items : list Request) (st : State) : State * JsArray :=
  ({| projectId := projectId st; fullQuery := fullQuery st; data := data st;
      querying := querying st; events := events st; dbcalls := dbcalls st;
      next_ref := S (next_ref st) |},
   {| arr_ref := next_ref st; arr_items := items |}).

(** [this._data = value] for an array the element has just created. *)
Definition assign_data (items : list Request) (st : State) : State :=
  let (st', value) := new_array items st in set_data value st'.

Section Element.

(** [String.prototype.localeCompare]: negative, zero or positive. *)
Variable localeCompare : string -> string -> Z.

(** The comparator handed to [list.sort] by [_prepareData]. *)
Definition compareRequests (a b : Request) : Z :=
  if js_gt (projectOrder a) (projectOrder b) then 1
  else if js_lt (projectOrder a) (projectOrder b) then -1
  else localeCompare (or_empty (name a)) (or_empty (name b)).

(** What [list.sort(...)] inside [_prepareData] leaves in [list]. *)
Definition sorted_in_place (items : list Request) : list Request :=
  Array_sort compareRequests items.

(** [_prepareData(list)] *)
Definition _prepareData (items : list Request) : list Request :=
  if (length items =? 0)%nat then [] else sorted_in_place items.

(** The callback of [list.map] in [_setDataScope]:
    [{ _id: item._id, _rev: item._rev, name: item.name }]. *)
Definition scoped (item : Request) : Request :=
  {| _id := _id item; _rev := _rev item; name := name item;
     projectOrder := None; legacyProject := None; projects := None;
     other := [] |}.

(** [_setDataScope(list)], reading [this.fullQuery]. *)
Definition _setDataScope (fullQuery : bool) (items : list Request) : list Request :=
  if fullQuery then items else scoped <$> items.

(** [_filterRequests(dbResponse, id)]; a missing [rows] is a [TypeError]. *)
Definition _filterRequests (dbResponse : Response Row.t) (id : string)
  : M (list Row.t) :=
  match rows dbResponse with
  | Some rs =>
      ret (List.filter (fun item => negb (String_indexOf (Row.id item) id =? -1)) rs)
  | None => throw undefined_filter
  end.

(** [_readProjectRequests(id)] *)
Definition _readProjectRequests (db : PouchDB) (id : string) : M (list string) :=
  doc ← await (ProjectGet id) (projectDb_get db id) ;
  ret (default [] (requests doc)).

(** [_getProjectRequest(keys)] *)
Definition _getProjectRequest (db : PouchDB) (keys : list string)
  : M (list Request) :=
  response ← await (SavedAllDocsKeys keys) (savedDb_allDocs_keys db keys) ;
  match rows response with
  | Some rs =>
      ret (fold_left
             (fun result item =>
                match KeyRow.doc item with
                | Some d => if negb (truthy (KeyRow.error item)) then result ++ [d] else result
                | None => result
                end)
             rs [])
  | None => throw undefined_forEach
  end.

(** [_tryLegacy(id)].  The value of [_prepareData(response)] is overwritten;
    what remains of that call is [response] sorted in place. *)
Definition _tryLegacy (db : PouchDB) (id : string) : M (list Request) :=
  response ← await SavedAllDocs (savedDb_allDocs db) ;
  response ← _filterRequests response id ;
  response ← await_all
    ((fun item => (SavedGet (Row.id item), savedDb_get db (Row.id item))) <$> response) ;
  let response := sorted_in_place response in
  el ← this ;
  let requests := _setDataScope (fullQuery el) response in
  exec (set_querying false) ;;
  ret requests.

(** The [catch] clause of [query]. *)
Definition query_catch (cause : Cause) : M (list Request) :=
  exec (set_querying false) ;;
  let message := if truthy (message cause) then default "" (message cause)
                 else json cause in
  exec (dispatchEvent (SendAnalytics message)) ;;
  ret [].

(** The [try] block of [query]. *)
Definition query_try (db : PouchDB) (id : string) : M (list Request) :=
  keys ← _readProjectRequests db id ;
  if (length keys =? 0)%nat then _tryLegacy db id
  else
    requests ← _getProjectRequest db keys ;
    let requests := _prepareData requests in
    el ← this ;
    let requests := _setDataScope (fullQuery el) requests in
    exec (set_querying false) ;;
    ret requests.

(** [query(id)] *)
Definition query (db : PouchDB) (id : option string) : M (list Request) :=
  if negb (truthy id) then throw missing_id
  else
    exec (set_querying true) ;;
    try_catch (query_try db (default "" id)) query_catch.

(** [_autoQuery(projectId)] *)
Definition _autoQuery (db : PouchDB) (projectId : option string) : M unit :=
  if negb (truthy projectId) then ret tt
  else
    requests ← query db projectId ;
    exec (assign_data requests).

(** [set projectId(value)]; the promise of [_autoQuery] is not awaited, so a
    rejection is not seen by the setter. *)
Definition set_projectId (db : PouchDB) (value : option string) (st : State) : State :=
  if decide (projectId st = value) then st
  else
    fst (_autoQuery db value
           {| projectId := value; fullQuery := fullQuery st; data := data st;
              querying := querying st; events := events st;
              dbcalls := dbcalls st; next_ref := next_ref st |}).

(** [_requestObjectChanged(e)] *)
Definition _requestObjectChanged (e : CustomEvent Changed.t) (st : State) : State :=
  if cancelable e then st
  else
    let request := Changed.request (detail e) in
    let projects0 := [] in
    let projects1 :=
      if truthy (legacyProject request) then [default "" (legacyProject request)]
      else projects0 in
    let projects2 :=
      match projects request with
      | Some ps => projects1 ++ ps
      | None => projects1
      end in
    if Array_indexOf (Some <$> projects2) (projectId st) =? -1 then st
    else
      let items := match data st with Some a => arr_items a | None => [] end in
      let items :=
        if (length items =? 0)%nat then [request]
        else
          let index := Array_findIndex (fun item => String.eqb (_id item) (_id request)) items in
          let items :=
            if index =? -1 then items ++ [request]
            else <[Z.to_nat index := request]> items in
          _prepareData items in
      assign_data items st.

(** The loop of [_checkDeleted]: [i] runs from [n - 1] down to [0]. *)
Fixpoint splice_loop (ids : list string) (n : nat) (items : list Request)
  (changed : bool) : list Request * bool :=
  match n with
  | O => (items, changed)
  | S i =>
      match items !! i with
      | Some it =>
          if negb (Z.lnot (Array_indexOf ids (_id it)) =? 0)
          then splice_loop ids i (delete i items) true
          else splice_loop ids i items changed
      | None => splice_loop ids i items changed
      end
  end.

(** [_checkDeleted(ids)] *)
Definition _checkDeleted (ids : list string) (st : State) : State :=
  match data st with
  | None => st
  | Some arr =>
      let items := arr_items arr in
      if (length items =? 0)%nat then st
      else
        let (items, changed) := splice_loop ids (length items) items false in
        if changed then assign_data items st else st
  end.

(** [_requestObjectDeleted(e)] *)
Definition _requestObjectDeleted (e : CustomEvent Deleted.t) (st : State) : State :=
  if cancelable e then st
  else
    let id := Deleted.id (detail e) in
    if negb (truthy id) then st
    else _checkDeleted [default "" id] st.

(** [_requestObjectsDeleted(e)] *)
Definition _requestObjectsDeleted (e : CustomEvent BulkDeleted.t) (st : State) : State :=
  if cancelable e then st
  else
    match BulkDeleted.items (detail e) with
    | None => st
    | Some ids => if (length ids =? 0)%nat then st else _checkDeleted ids st
    end.

(** [element.fullQuery = value] *)
Definition set_fullQuery (value : bool) (st : State) : State :=
  {| projectId := projectId st; fullQuery := value; data := data st;
     querying := querying st; events := events st; dbcalls := dbcalls st;
     next_ref := next_ref st |}.

(** The three listeners [connectedCallback] registers on [window]. *)
Inductive Notification :=
| request_object_changed (e : CustomEvent Changed.t)
| request_object_deleted (e : CustomEvent Deleted.t)
| request_objects_deleted (e : CustomEvent BulkDeleted.t).

Definition notify (n : Notification) (st : State) : State :=
  match n with
| request_object_changed e => _requestObjectChanged e st
| request_object_deleted e => _requestObjectDeleted e st
| request_objects_deleted e => _requestObjectsDeleted e st
  end.

End Element.

(** Unfolding one run of the [async] methods. *)
Ltac run :=
  unfold query_try, _tryLegacy, _getProjectRequest, _readProjectRequests,
    _filterRequests, query_catch, this, exec, await, throw, ret,
    mbind, M_bind, bind; simpl.

(** ** The superseded Polymer revision ([src/unnamed/part_000])

    Only what differs from the LitElement component and bears on the
    properties below: [query], which always scans and re-throws, and
    [_requestObjectChanged], which looks an entry up by [oldId]. *)

Module Polymer.

(** What the element dispatches or logs: property notifications, its own
    events, and [console.error]. *)
Inductive Event :=
| data_changed (value : list Request)
| querying_changed (value : bool)
| project_related_requests_read (projectId : option string) (items : list Request)
| send_analytics (description : string)
| console_error (cause : Cause)
| error (message : option string)
| data_spliced (index : nat) (removed : Request).

Record State := mkState {
  projectId : option string;
  fullQuery : bool;
  data : option (list Request);
  querying : option bool;
  events : list Event
}.

Definition dispatch (evs : list Event) (st : State) : State :=
  {| projectId := projectId st; fullQuery := fullQuery st; data := data st;
     querying := querying st; events := events st ++ evs |}.

(** [this._setQuerying(value)] *)
Definition _setQuerying (value : bool) (st : State) : State :=
  if decide (querying st = Some value) then st
  else
    dispatch [querying_changed value]
      {| projectId := projectId st; fullQuery := fullQuery st; data := data st;
         querying := Some value; events := events st |}.

(** [this.set('data', value)] with an array the element has just created. *)
Definition set_data (value : list Request) (st : State) : State :=
  dispatch [data_changed value]
    {| projectId := projectId st; fullQuery := fullQuery st; data := Some value;
       querying := querying st; events := events st |}.

(** [a > b] and [a < b] on optional strings, by code units. *)
Definition str_gt (a b : option string) : bool :=
  match a, b with
  | Some s, Some t => match String.compare s t with Gt => true | _ => false end
  | _, _ => false
  end.

Definition str_lt (a b : option string) : bool :=
  match a, b with
  | Some s, Some t => match String.compare s t with Lt => true | _ => false end
  | _, _ => false
  end.

(** The comparator of [_prepareData]. *)
Definition compareRequests (a b : Request) : Z :=
  if js_gt (projectOrder a) (projectOrder b) then 1
  else if js_lt (projectOrder a) (projectOrder b) then -1
  else if str_gt (name a) (name b) then 1
  else if str_lt (name a) (name b) then -1
  else 0.

(** [item.id = item._id] *)
Definition with_id (item : Request) : Request :=
  {| _id := _id item; _rev := _rev item; name := name item;
     projectOrder := projectOrder item; legacyProject := legacyProject item;
     projects := projects item;
     other := ("id", _id item)
              :: List.filter (fun kv => negb (String.eqb (fst kv) "id")) (other item) |}.

(** [_prepareData(list)] *)
Definition _prepareData (items : list Request) : list Request :=
  if (length items =? 0)%nat then []
  else with_id <$> Array_sort compareRequests items.

(** The promise chain of [query] up to its last [then]. *)
Definition query_chain (db : PouchDB) (id : string) (fullQuery : bool)
  : Outcome (list Request) :=
  match savedDb_allDocs db with
  | Rejected cause => Rejected cause
  | Resolved response =>
      match rows response with
      | None => Rejected undefined_filter
      | Some rs =>
          match Promise_all
                  ((fun item => savedDb_get db (Row.id item)) <$>
                   List.filter
                     (fun item => negb (String_indexOf (Row.id item) id =? -1)) rs)
          with
          | Rejected cause => Rejected cause
          | Resolved requests =>
              Resolved (_prepareData (_setDataScope fullQuery requests))
          end
      end
  end.

(** [query(id)] *)
Definition query (db : PouchDB) (id : option string) (st : State)
  : State * Outcome (list Request) :=
  if negb (truthy id) then (st, Rejected missing_id)
  else
    let st := _setQuerying true st in
    match query_chain db (default "" id) (fullQuery st) with
    | Resolved requests => (_setQuerying false st, Resolved requests)
    | Rejected cause =>
        let message := if truthy (message cause) then default "" (message cause)
                       else json cause in
        (dispatch [send_analytics message; console_error cause]
           (_setQuerying false st),
         Rejected cause)
    end.

(** [_requestObjectChanged(e)] *)
Definition _requestObjectChanged (e : CustomEvent Changed.t) (st : State) : State :=
  if cancelable e then st
  else
    let request := Changed.request (detail e) in
    if negb (truthy (legacyProject request))
       || negb (bool_decide (legacyProject request = projectId st))
    then st
    else
      match data st with
      | None | Some [] =>
          let st := set_data [request] st in
          dispatch [project_related_requests_read (projectId st) [request]] st
      | Some items =>
          let oldId := Changed.oldId (detail e) in
          let existing :=
            Array_findIndex (fun item => bool_decide (Some (_id item) = oldId)) items in
          let items :=
            if existing =? -1 then items ++ [request]
            else <[Z.to_nat existing := request]> items in
          set_data (_prepareData items) st
      end.

(** [_dispatchReadEvent(requests, projectId)] *)
Definition _dispatchReadEvent (requests : list Request) (projectId : option string)
  (st : State) : State :=
  dispatch [project_related_requests_read projectId requests] st.

(** [_autoQuery(projectId)]: the list is set and announced when [query]
    resolves, an [error] event carries the message when it rejects. *)
Definition _autoQuery (db : PouchDB) (projectId : option string) (st : State) : State :=
  if negb (truthy projectId) then st
  else
    match query db projectId st with
    | (st', Resolved requests) =>
        _dispatchReadEvent requests projectId (set_data requests st')
    | (st', Rejected cause) => dispatch [error (message cause)] st'
    end.

(** [this.splice('data', i, 1)] *)
Definition splice (i : nat) (st : State) : State :=
  match default [] (data st) !! i with
  | Some it =>
      dispatch [data_spliced i it]
        {| projectId := projectId st; fullQuery := fullQuery st;
           data := Some (delete i (default [] (data st)));
           querying := querying st; events := events st |}
  | None => st
  end.

(** The loop of [_checkDeleted]: [i] runs from [n - 1] down to [0] over the
    array held in [data], which the splices change in place. *)
Fixpoint splice_loop (ids : list string) (n : nat) (st : State) : State :=
  match n with
  | O => st
  | S i =>
      match default [] (data st) !! i with
      | Some it =>
          if negb (Z.lnot (Array_indexOf ids (_id it)) =? 0)
          then splice_loop ids i (splice i st)
          else splice_loop ids i st
      | None => splice_loop ids i st
      end
  end.

(** [_checkDeleted(ids)] *)
Definition _checkDeleted (ids : list string) (st : State) : State :=
  match data st with
  | None => st
  | Some items =>
      if (length items =? 0)%nat then st
      else splice_loop ids (length items) st
  end.

(** [_requestObjectDeleted(e)] *)
Definition _requestObjectDeleted (e : CustomEvent Deleted.t) (st : State) : State :=
  if cancelable e then st
  else if negb (truthy (Deleted.id (detail e))) then st
  else _checkDeleted [default "" (Deleted.id (detail e))] st.

(** [_requestObjectsDeleted(e)] *)
Definition _requestObjectsDeleted (e : CustomEvent BulkDeleted.t) (st : State) : State :=
  if cancelable e then st
  else
    match BulkDeleted.items (detail e) with
    | None => st
    | Some ids => if (length ids =? 0)%nat then st else _checkDeleted ids st
    end.

End Polymer.

(** ** A reference store and a reference collation

    Used to run the element on concrete inputs. *)

(** PouchDB's [not_found] error. *)
Definition not_found : Cause :=
  {| message := Some "missing";
     json := ("{" ++ dquote ++ "status" ++ dquote ++ ":404," ++ dquote ++ "name"
              ++ dquote ++ ":" ++ dquote ++ "not_found" ++ dquote ++ "}")%string |}.

(** [requests.find((item) => item._id === id)], as in the mock of
    [src/test/test-data-generator.js]. *)
Definition mem_find (saved : list Request) (id : string) : option Request :=
  List.find (fun item => String.eqb (_id item) id) saved.

(** What a bulk read answers for one key. *)
Definition key_row (resolve : string -> option Request) (k : string) : KeyRow.t :=
  match resolve k with
  | Some d => KeyRow.mk k None (Some d)
  | None => KeyRow.mk k (Some "not_found") None
  end.

(** An in-memory store: [allDocs] lists every document, a read of a missing
    document rejects with [not_found], a bulk read answers one row per key. *)
Definition PouchDB_mem (project_docs : list (string * ProjectDoc))
  (saved : list Request) : PouchDB :=
  {| projectDb_get id :=
       match List.find (fun p => String.eqb (fst p) id) project_docs with
       | Some p => Resolved (snd p)
       | None => Rejected not_found
       end;
     savedDb_allDocs :=
       Resolved (mkResponse (Some ((fun item => Row.mk (_id item)) <$> saved)));
     savedDb_allDocs_keys keys :=
       Resolved (mkResponse (Some (key_row (mem_find saved) <$> keys)));
     savedDb_get id :=
       match mem_find saved id with
       | Some d => Resolved d
       | None => Rejected not_found
       end |}.

(** A store whose every operation fails. *)
Definition PouchDB_down (cause : Cause) : PouchDB :=
  {| projectDb_get _ := Rejected cause;
     savedDb_allDocs := Rejected cause;
     savedDb_allDocs_keys _ := Rejected cause;
     savedDb_get _ := Rejected cause |}.

(** Comparison by code units, a collation without locale tailoring. *)
Definition codeunitCompare (s t : string) : Z :=
  match String.compare s t with
  | Lt => -1
  | Eq => 0
  | Gt => 1
  end.

(** ** Vocabulary of the specification *)

(** The documents a bulk read resolved: the rows without [error] that carry
    a [doc]. *)
Definition resolved_docs (rs : list KeyRow.t) : list Request :=
  omap (fun item => if truthy (KeyRow.error item) then None else KeyRow.doc item) rs.

(** The row [item] answers key [k] of a bulk read when [resolve] says which
    ids resolve: the document without an error, or else an error or no
    document. *)
Definition answers (resolve : string -> option Request) (k : string)
  (item : KeyRow.t) : Prop :=
  KeyRow.key item = k /\
  match resolve k with
  | Some d => truthy (KeyRow.error item) = false /\ KeyRow.doc item = Some d
  | None => truthy (KeyRow.error item) = true \/ KeyRow.doc item = None
  end.

(** [s] contains [needle] as a substring. *)
Definition contains (s needle : string) : Prop :=
  exists m, substring m (String.length needle) s = needle.

(** The rows of a scan whose identifier contains the project id. *)
Definition matching (id : string) (rs : list Row.t) : list Row.t :=
  List.filter (fun item => negb (String_indexOf (Row.id item) id =? -1)) rs.

(** The store calls one run added to the trace. *)
Definition new_calls (before after : State) : list DbCall :=
  drop (length (dbcalls before)) (dbcalls after).

(** The run took the legacy fallback: it scanned all request documents. *)
Definition took_fallback (before after : State) : Prop :=
  SavedAllDocs ∈ new_calls before after.

(** The description sent with the telemetry event. *)
Definition report (cause : Cause) : string :=
  if truthy (message cause) then default "" (message cause) else json cause.

(** The lookup of project [P] fails with [cause]: a store call rejects or a
    response is malformed, in Step 1 or in Step 2. *)
Inductive lookup_fails (db : PouchDB) (P : string) : Cause -> Prop :=
| project_read_rejected cause :
    projectDb_get db P = Rejected cause ->
    lookup_fails db P cause
| bulk_read_rejected doc cause :
    projectDb_get db P = Resolved doc ->
    default [] (requests doc) <> [] ->
    savedDb_allDocs_keys db (default [] (requests doc)) = Rejected cause ->
    lookup_fails db P cause
| bulk_read_malformed doc :
    projectDb_get db P = Resolved doc ->
    default [] (requests doc) <> [] ->
    savedDb_allDocs_keys db (default [] (requests doc)) = Resolved (mkResponse None) ->
    lookup_fails db P undefined_forEach
| scan_rejected doc cause :
    projectDb_get db P = Resolved doc ->
    default [] (requests doc) = [] ->
    savedDb_allDocs db = Rejected cause ->
    lookup_fails db P cause
| scan_malformed doc :
    projectDb_get db P = Resolved doc ->
    default [] (requests doc) = [] ->
    savedDb_allDocs db = Resolved (mkResponse None) ->
    lookup_fails db P undefined_filter
| fetch_rejected doc rs cause :
    projectDb_get db P = Resolved doc ->
    default [] (requests doc) = [] ->
    savedDb_allDocs db = Resolved (mkResponse (Some rs)) ->
    Promise_all ((fun item => savedDb_get db (Row.id item)) <$> matching P rs)
      = Rejected cause ->
    lookup_fails db P cause.

(** The ordering as the specification words it: ascending by [projectOrder],
    a missing or equal [projectOrder] is a tie, ties are broken by the
    locale-aware comparison of [name], the empty string standing for an absent
    name. *)
Definition spec_order (localeCompare : string -> string -> Z) (a b : Request) : Z :=
  let by_name := localeCompare (default "" (name a)) (default "" (name b)) in
  match projectOrder a, projectOrder b with
  | Some x, Some y =>
      match x ?= y with
      | Lt => -1
      | Eq => by_name
      | Gt => 1
      end
  | _, _ => by_name
  end.


(** ** Vocabulary of Live Sync *)

(** Every array identity in use is older than the next one handed out. *)
Definition fresh_refs (st : State) : Prop :=
  match data st with
  | Some a => (arr_ref a < next_ref st)%nat
  | None => True
  end.

(** The record belongs to the project: its non-empty [legacyProject] is the
    project id, or its [projects] list has the project id. *)
Definition associated (request : Request) (project : option string) : bool :=
  match project with
  | Some pid =>
      (truthy (legacyProject request)
       && bool_decide (legacyProject request = Some pid))
      || bool_decide (pid ∈ default [] (projects request))
  | None => false
  end.

(** Replace the first entry whose identifier is [key] by [r], or append [r]
    when there is none. *)
Fixpoint replace_or_append (key : string) (r : Request) (items : list Request)
  : list Request :=
  match items with
  | [] => [r]
  | x :: rest =>
      if String.eqb (_id x) key then r :: rest
      else x :: replace_or_append key r rest
  end.

(** Upsert by the record's own identifier. *)
Definition upsert (r : Request) (items : list Request) : list Request :=
  replace_or_append (_id r) r items.

(** The list held in [data]; empty when there is none. *)
Definition current (st : State) : list Request :=
  match data st with
  | Some a => arr_items a
  | None => []
  end.

(** The Changed handler as the specification words it: the existing entry is
    looked up by [previousId] when the identifier just changed, else by the
    record's own id. *)
Definition spec_requestObjectChanged (localeCompare : string -> string -> Z)
  (e : CustomEvent Changed.t) (st : State) : State :=
  if cancelable e then st
  else
    let request := Changed.request (detail e) in
    if negb (associated request (projectId st)) then st
    else
      let key := default (_id request) (Changed.oldId (detail e)) in
      let items :=
        match current st with
        | [] => [request]
        | old => sorted_in_place localeCompare (replace_or_append key request old)
        end in
      assign_data items st.

(** The entries a deletion of [ids] keeps, and whether it removes any. *)
Definition remaining (ids : list string) (items : list Request) : list Request :=
  List.filter (fun it => negb (bool_decide (_id it ∈ ids))) items.

Definition removes (ids : list string) (items : list Request) : bool :=
  existsb (fun it => bool_decide (_id it ∈ ids)) items.

(** [st'] is [st] with [items] published as a new array: one [data] event,
    nothing else dispatched or called. *)
Definition publishes (items : list Request) (st st' : State) : Prop :=
  let value := {| arr_ref := next_ref st; arr_items := items |} in
  st' = {| projectId := projectId st; fullQuery := fullQuery st;
           data := Some value; querying := querying st;
           events := events st ++ [DataEvent (projectId st) value];
           dbcalls := dbcalls st; next_ref := S (next_ref st) |}.

(** The effect of deleting [ids]: the matching entries go and the rest is
    published once, or nothing happens. *)
Definition removal (ids : list string) (st st' : State) : Prop :=
  if removes ids (current st) then publishes (remaining ids (current st)) st st'
  else st' = st.

(** The ids a deletion notification acts on; none when it is ignored. *)
Definition deleted_ids (n : Notification) : list string :=
  match n with
  | request_object_changed _ => []
  | request_object_deleted e =>
      if cancelable e then []
      else if truthy (Deleted.id (detail e)) then [default "" (Deleted.id (detail e))]
      else []
  | request_objects_deleted e =>
      if cancelable e then [] else default [] (BulkDeleted.items (detail e))
  end.

Definition is_deletion (n : Notification) : Prop :=
  match n with
  | request_object_changed _ => False
  | _ => True
  end.

(** No two entries of [data] share an identifier. *)
Definition duplicate_free (st : State) : Prop := NoDup (_id <$> current st).

(** The store returns duplicate-free results for project [P]: the documents
    of a bulk read of the project's keys, and the documents fetched on the
    fallback, have pairwise different identifiers. *)
Definition duplicate_free_results (db : PouchDB) (P : string) : Prop :=
  (forall doc rs,
      projectDb_get db P = Resolved doc ->
      savedDb_allDocs_keys db (default [] (requests doc))
        = Resolved (mkResponse (Some rs)) ->
      NoDup (_id <$> resolved_docs rs)) /\
  (forall rs docs,
      savedDb_allDocs db = Resolved (mkResponse (Some rs)) ->
      Promise_all ((fun item => savedDb_get db (Row.id item)) <$> matching P rs)
        = Resolved docs ->
      NoDup (_id <$> docs)).

(** What can happen to an element: [projectId] or [fullQuery] is assigned,
    [query] is called, a notification arrives. *)
Inductive step (localeCompare : string -> string -> Z) : State -> State -> Prop :=
| step_projectId db value st :
    duplicate_free_results db (default "" value) ->
    step localeCompare st (set_projectId localeCompare db value st)
| step_fullQuery value st :
    step localeCompare st (set_fullQuery value st)
| step_query db id st :
    step localeCompare st (fst (query localeCompare db id st))
| step_notify n st :
    step localeCompare st (notify localeCompare n st).

Definition reachable (localeCompare : string -> string -> Z) (st : State) : Prop :=
  rtc (step localeCompare) initial st.

(** ** The element in its page *)

(** The listeners of the element: an event type of the bus with the handler
    bound to the element in its constructor. *)
Inductive Registration :=
| on_request_object_changed
| on_request_object_deleted
| on_request_objects_deleted.

#[global] Instance Registration_eq_dec : EqDecision Registration.
Proof. solve_decision. Defined.

(** An element, its listeners in the listener list of [window], and its
    [aria-hidden] attribute. *)
Record Hosted := mkHosted {
  element : State;
  window_listeners : list Registration;
  aria_hidden : option string
}.

(** [window.addEventListener(type, callback)]: a listener with the same type
    and callback is not added twice. *)
Definition addEventListener (r : Registration) (ls : list Registration)
  : list Registration :=
  if bool_decide (r ∈ ls) then ls else ls ++ [r].

(** [window.removeEventListener(type, callback)] *)
Definition removeEventListener (r : Registration) (ls : list Registration)
  : list Registration :=
  List.filter (fun x => negb (bool_decide (x = r))) ls.

(** [document.createElement('legacyproject-related-requests')] *)
Definition created : Hosted :=
  {| element := initial; window_listeners := []; aria_hidden := None |}.

(** [connectedCallback()]; what [super.connectedCallback] does is the
    framework's. *)
Definition connectedCallback (h : Hosted) : Hosted :=
  {| element := element h;
     window_listeners :=
       addEventListener on_request_objects_deleted
         (addEventListener on_request_object_deleted
            (addEventListener on_request_object_changed (window_listeners h)));
     aria_hidden := Some "true" |}.

(** [disconnectedCallback()] *)
Definition disconnectedCallback (h : Hosted) : Hosted :=
  {| element := element h;
     window_listeners :=
       removeEventListener on_request_objects_deleted
         (removeEventListener on_request_object_deleted
            (removeEventListener on_request_object_changed (window_listeners h)));
     aria_hidden := aria_hidden h |}.

(** The listener an event of the bus is for. *)
Definition registration_of (n : Notification) : Registration :=
  match n with
  | request_object_changed _ => on_request_object_changed
  | request_object_deleted _ => on_request_object_deleted
  | request_objects_deleted _ => on_request_objects_deleted
  end.

(** An event of the bus reaches [window]: the listeners registered for its
    type run in the order of the listener list. *)
Definition window_dispatch (localeCompare : string -> string -> Z)
  (n : Notification) (h : Hosted) : Hosted :=
  {| element :=
       fold_left
         (fun el r =>
            if bool_decide (r = registration_of n) then notify localeCompare n el
            else el)
         (window_listeners h) (element h);
     window_listeners := window_listeners h;
     aria_hidden := aria_hidden h |}.

(** ** The store mock of the tests ([src/test/test-data-generator.js]) *)

Module PouchDbMock.

(** [Mocked.prototype.allDocs()] *)
Definition allDocs (requests : list Request) : Outcome (Response Row.t) :=
  Resolved (mkResponse (Some ((fun item => Row.mk (_id item)) <$> requests))).

(** [Mocked.prototype.get(id)]; [None] is [undefined]. *)
Definition get (requests : list Request) (id : string) : option Request :=
  List.find (fun item => String.eqb (_id item) id) requests.

End PouchDbMock.

(** ** Vocabulary of the further properties *)

(** What can happen to an element, whatever the stores hold: [projectId] or
    [fullQuery] is assigned, [query] is called, a notification arrives. *)
Inductive transition (localeCompare : string -> string -> Z) : State -> State -> Prop :=
| transition_projectId db value st :
    transition localeCompare st (set_projectId localeCompare db value st)
| transition_fullQuery value st :
    transition localeCompare st (set_fullQuery value st)
| transition_query db id st :
    transition localeCompare st (fst (query localeCompare db id st))
| transition_notify n st :
    transition localeCompare st (notify localeCompare n st).

Definition attainable (localeCompare : string -> string -> Z) (st : State) : Prop :=
  rtc (transition localeCompare) initial st.

(** The arrays the [data] events of a trace carried, and the values its
    [querying] events carried. *)
Definition published (evs : list Event) : list JsArray :=
  omap (fun e => match e with DataEvent _ a => Some a | _ => None end) evs.

Definition querying_values (evs : list Event) : list bool :=
  omap (fun e => match e with QueryingEvent v => Some v | _ => None end) evs.

(** [data] is what the last [data] event carried. *)
Definition held_is_published (st : State) : Prop :=
  fresh_refs st /\ last (published (events st)) = data st.

(** The [querying] events come in pairs, [true] then [false], and [querying]
    is what the last one carried. *)
Definition querying_paired (st : State) : Prop :=
  (exists n, querying_values (events st) = concat (replicate n [true; false])) /\
  querying st = last (querying_values (events st)).

(** The store calls of a lookup of project [P], read off the store. *)
Definition store_traffic (db : PouchDB) (P : string) : list DbCall :=
  ProjectGet P ::
  match projectDb_get db P with
  | Rejected _ => []
  | Resolved doc =>
      match default [] (requests doc) with
      | [] =>
          SavedAllDocs ::
          match savedDb_allDocs db with
          | Resolved response =>
              (fun item => SavedGet (Row.id item))
                <$> matching P (default [] (rows response))
          | Rejected _ => []
          end
      | keys => [SavedAllDocsKeys keys]
      end
  end.

(** A committed notification of the deletion of [ids]. *)
Definition bulk_deleted (ids : list string) : Notification :=
  request_objects_deleted (mkEvent false (BulkDeleted.mk (Some ids))).

(** A committed notification of the deletion of [id]. *)
Definition deleted (id : string) : Notification :=
  request_object_deleted (mkEvent false (Deleted.mk (Some id))).

(** The element with another [projectId] and nothing else changed. *)
Definition with_projectId (value : option string) (st : State) : State :=
  {| projectId := value; fullQuery := fullQuery st; data := data st;
     querying := querying st; events := events st; dbcalls := dbcalls st;
     next_ref := next_ref st |}.

(** ** Sample data *)

Definition sample_request (id nm : string) (order : option Z)
  (project : option string) : Request :=
  {| _id := id; _rev := Some "1-abc"; name := Some nm; projectOrder := order;
     legacyProject := project; projects := None;
     other := [("method", "GET"); ("type", "saved")] |}.

Definition Beta : Request := sample_request "r-beta" "Beta" (Some 2) None.
Definition Alpha : Request := sample_request "r-alpha" "Alpha" (Some 1) None.

(** Project [P1] lists [Beta], [Alpha] and an id that no longer resolves. *)
Definition store_P1 : PouchDB :=
  PouchDB_mem [("P1", mkProjectDoc (Some ["r-beta"; "r-alpha"; "r-gone"]))]
              [Beta; Alpha].

Definition LegacyOne : Request :=
  sample_request "P3/one" "One" (Some 1) (Some "P3").
Definition LegacyTwo : Request :=
  sample_request "two/P3" "Two" None (Some "P3").

(** Project [P3] has a document without a [requests] list; [P4] has no
    document although a request id carries it. *)
Definition store_legacy : PouchDB :=
  PouchDB_mem [("P3", mkProjectDoc None)]
              [Beta; LegacyOne; Alpha; LegacyTwo;
               sample_request "P4/x" "Four" None (Some "P4")].

(** The element after [projectId = 'P1'] on [store_P1]. *)
Definition state_P1 : State :=
  set_projectId codeunitCompare store_P1 (Some "P1") initial.

(** Request [r-beta] saved again under a new identifier. *)
Definition Renamed : Request :=
  sample_request "r-new" "Beta" (Some 2) (Some "P1").

Definition renamed_event : CustomEvent Changed.t :=
  mkEvent false (Changed.mk Renamed (Some "r-beta")).

(** Project [P5] lists a single request. *)
Definition Only : Request := sample_request "r-only" "Only" (Some 1) None.

Definition store_P5 : PouchDB :=
  PouchDB_mem [("P5", mkProjectDoc (Some ["r-only"]))] [Only].

Definition state_P5 : State :=
  set_projectId codeunitCompare store_P5 (Some "P5") initial.

Definition only_deleted : Notification :=
  request_object_deleted (mkEvent false (Deleted.mk (Some "r-only"))).

(** A Polymer element showing request [r-beta] of project [P1], and the
    notification of a change of that request. *)
Definition polymer_state : Polymer.State :=
  {| Polymer.projectId := Some "P1"; Polymer.fullQuery := true;
     Polymer.data := Some [sample_request "r-beta" "Beta" (Some 2) (Some "P1")];
     Polymer.querying := Some false; Polymer.events := [] |}.

Definition beta_changed : CustomEvent Changed.t :=
  mkEvent false
    (Changed.mk (sample_request "r-beta" "Beta two" (Some 2) (Some "P1")) None).

(** A Polymer element as created, with [fullQuery] not set. *)
Definition polymer_created : Polymer.State :=
  {| Polymer.projectId := None; Polymer.fullQuery := false;
     Polymer.data := None; Polymer.querying := None; Polymer.events := [] |}.

(** Project [P6] lists the same request twice. *)
Definition store_P6 : PouchDB :=
  PouchDB_mem [("P6", mkProjectDoc (Some ["r-alpha"; "r-alpha"]))] [Beta; Alpha].

(** Three records, the middle one without [projectOrder]. *)
Definition mixed_orders : list Request :=
  [sample_request "m-1" "a" (Some 2) None;
   sample_request "m-2" "b" None None;
   sample_request "m-3" "c" (Some 1) None].

(** * Properties *)

(** ** Facts about the built-ins *)

Section ArraySort.
Context {A : Type} (comparefn : A -> A -> Z).

#[local] Abbreviation keeps := (keeps comparefn).

Lemma sort_insert_perm x l : sort_insert comparefn x l ≡ₚ x :: l.
Proof.
  induction l as [|y l IH]; simpl; [done|].
  destruct (comparefn x y <=? 0); [done|].
  rewrite IH. apply Permutation_swap.
Qed.

Lemma Array_sort_perm l : Array_sort comparefn l ≡ₚ l.
Proof.
  induction l as [|x l IH]; simpl; [done|].
  rewrite sort_insert_perm. by f_equiv.
Qed.

Lemma Array_sort_length l : length (Array_sort comparefn l) = length l.
Proof. apply Permutation_length, Array_sort_perm. Qed.

(** Sorting a list whose neighbours are in order changes nothing. *)
Lemma Array_sort_sorted_id l :
  Sorted keeps l -> Array_sort comparefn l = l.
Proof.
  induction 1 as [|x l Hs IH Hhd]; simpl; [done|].
  rewrite IH. destruct Hhd as [|y l Hxy]; simpl; [done|].
  unfold keeps in Hxy. by destruct (Z.leb_spec (comparefn x y) 0); [|lia].
Qed.

(** Members of a class of pairwise tied elements are never reordered. *)
Lemma sort_insert_filter (P : A -> bool) x l :
  (forall y, y ∈ l -> P x = true -> P y = true -> comparefn x y <= 0) ->
  List.filter P (sort_insert comparefn x l) = List.filter P (x :: l).
Proof.
  induction l as [|y l IH]; intros Hx; simpl; [done|].
  destruct (Z.leb_spec (comparefn x y) 0) as [Hle|Hgt]; simpl; [done|].
  rewrite IH; [|intros z Hz; apply Hx; by right]. simpl.
  destruct (P x) eqn:Px, (P y) eqn:Py; try done.
  specialize (Hx y (list_elem_of_here _ _) eq_refl Py). lia.
Qed.


Section Antisymmetric.
Hypothesis comparefn_antisym : forall a b, 0 < comparefn a b -> comparefn b a <= 0.

Lemma sort_insert_HdRel x y l :
  HdRel keeps y l -> keeps y x -> HdRel keeps y (sort_insert comparefn x l).
Proof.
  intros [|z l' Hyz] Hyx; simpl; [by constructor|].
  destruct (comparefn x z <=? 0); by constructor.
Qed.

Lemma sort_insert_sorted x l :
  Sorted keeps l -> Sorted keeps (sort_insert comparefn x l).
Proof.
  induction 1 as [|y l Hs IH Hhd]; simpl; [by repeat constructor|].
  destruct (Z.leb_spec (comparefn x y) 0) as [Hle|Hgt].
  - constructor; [by constructor|by constructor].
  - constructor; [done|].
    apply sort_insert_HdRel; [done|]. by apply comparefn_antisym.
Qed.

Lemma Array_sort_sorted l : Sorted keeps (Array_sort comparefn l).
Proof.
  induction l as [|x l IH]; simpl; [constructor|by apply sort_insert_sorted].
Qed.

Lemma Array_sort_idempotent l :
  Array_sort comparefn (Array_sort comparefn l) = Array_sort comparefn l.
Proof. apply Array_sort_sorted_id, Array_sort_sorted. Qed.
End Antisymmetric.

(** On a list where the comparator is reflexive and transitive, the output is
    ordered throughout, and it is the only ordered permutation of the input
    that keeps tied elements in their order: any stable sort computes it. *)
Section Consistent.

Lemma Sorted_StronglySorted_on l :
  (forall a b c, a ∈ l -> b ∈ l -> c ∈ l -> keeps a b -> keeps b c -> keeps a c) ->
  Sorted keeps l -> StronglySorted keeps l.
Proof.
  intros Htrans. induction 1 as [|x l Hs IH Hhd]; constructor.
  - apply IH. intros a b c Ha Hb Hc. apply Htrans; by right.
  - assert (StronglySorted keeps l) as Hss.
    { apply IH. intros a b c Ha Hb Hc. apply Htrans; by right. }
    destruct Hhd as [|y l Hxy]; constructor; [done|].
    apply StronglySorted_inv in Hss as [_ Hy].
    rewrite Forall_forall in *. intros z Hz.
    apply (Htrans x y z); [by left|right; by left|right; by right|done|].
    by apply Hy.
Qed.

Lemma Array_sort_strongly_sorted l :
  (forall a b, 0 < comparefn a b -> comparefn b a <= 0) ->
  (forall a b c, a ∈ l -> b ∈ l -> c ∈ l -> keeps a b -> keeps b c -> keeps a c) ->
  StronglySorted keeps (Array_sort comparefn l).
Proof.
  intros Hanti Htrans. apply Sorted_StronglySorted_on.
  - intros a b c Ha Hb Hc. rewrite Array_sort_perm in Ha, Hb, Hc. by apply Htrans.
  - by apply Array_sort_sorted.
Qed.

Lemma Array_sort_stable_on (P : A -> bool) l :
  (forall a b, a ∈ l -> b ∈ l -> P a = true -> P b = true -> comparefn a b <= 0) ->
  List.filter P (Array_sort comparefn l) = List.filter P l.
Proof.
  induction l as [|x l IH]; intros HP; simpl; [done|].
  rewrite sort_insert_filter.
  - simpl. rewrite IH; [done|]. intros a b Ha Hb. apply HP; by right.
  - intros y Hy. rewrite Array_sort_perm in Hy. apply HP; [by left|by right].
Qed.

Lemma sorted_stable_unique l1 l2 :
  (forall a, a ∈ l1 -> keeps a a) ->
  l1 ≡ₚ l2 ->
  StronglySorted keeps l1 -> StronglySorted keeps l2 ->
  (forall a, a ∈ l1 ->
             List.filter (tied comparefn a) l1 = List.filter (tied comparefn a) l2) ->
  l1 = l2.
Proof.
  revert l2. induction l1 as [|x t1 IH]; intros l2 Hrefl Hperm Hs1 Hs2 Hties.
  { by apply Permutation_nil in Hperm. }
  destruct l2 as [|y t2].
  { symmetry in Hperm. by apply Permutation_nil in Hperm. }
  apply StronglySorted_inv in Hs1 as [Hs1 Hx], Hs2 as [Hs2 Hy].
  rewrite Forall_forall in Hx, Hy.
  assert (keeps x x) as Hxx by (apply Hrefl; by left).
  assert (keeps y y) as Hyy.
  { apply Hrefl. rewrite Hperm. by left. }
  assert (keeps x y) as Hxy.
  { assert (y ∈ x :: t1) as [->|Hin]%elem_of_cons by (rewrite Hperm; by left);
      [done|by apply Hx]. }
  assert (keeps y x) as Hyx.
  { assert (x ∈ y :: t2) as [->|Hin]%elem_of_cons by (rewrite <- Hperm; by left);
      [done|by apply Hy]. }
  assert (x = y) as <-.
  { pose proof (Hties x (list_elem_of_here _ _)) as Hx'. simpl in Hx'.
    unfold tied, keeps in *.
    rewrite !(proj2 (Z.leb_le _ _) Hxx), !(proj2 (Z.leb_le _ _) Hxy),
      !(proj2 (Z.leb_le _ _) Hyx) in Hx'. simpl in Hx'. congruence. }
  f_equal. apply IH; try done.
  - intros a Ha. apply Hrefl. by right.
  - by apply Permutation_cons_inv in Hperm.
  - intros a Ha. pose proof (Hties a (list_elem_of_further _ _ _ Ha)) as Ha'.
    simpl in Ha'. destruct (tied comparefn a x); congruence.
Qed.

Lemma Array_sort_unique l l' :
  (forall a b, 0 < comparefn a b -> comparefn b a <= 0) ->
  (forall a, a ∈ l -> keeps a a) ->
  (forall a b c, a ∈ l -> b ∈ l -> c ∈ l -> keeps a b -> keeps b c -> keeps a c) ->
  l' ≡ₚ l ->
  Sorted keeps l' ->
  (forall a, List.filter (tied comparefn a) l' = List.filter (tied comparefn a) l) ->
  l' = Array_sort comparefn l.
Proof.
  intros Hanti Hrefl Htrans Hperm Hsorted Hstable.
  apply sorted_stable_unique.
  - intros a Ha. rewrite Hperm in Ha. by apply Hrefl.
  - by rewrite Array_sort_perm.
  - apply Sorted_StronglySorted_on; [|done].
    intros a b c Ha Hb Hc. rewrite Hperm in Ha, Hb, Hc. by apply Htrans.
  - by apply Array_sort_strongly_sorted.
  - intros a Ha. rewrite Hstable. symmetry. apply Array_sort_stable_on.
    intros b c Hb Hc [Hab Hba]%andb_prop [Hac Hca]%andb_prop.
    apply Z.leb_le in Hab, Hba, Hac, Hca.
    rewrite Hperm in Ha. by apply (Htrans b a c).
Qed.
End Consistent.
End ArraySort.

Lemma codeunitCompare_antisym s t :
  0 < codeunitCompare s t -> codeunitCompare t s <= 0.
Proof.
  unfold codeunitCompare. rewrite (String.compare_antisym t s).
  destruct (String.compare s t); simpl; lia.
Qed.



(** ** The comparator and the ordering step *)

Lemma or_empty_default o : or_empty o = default "" o.
Proof.
  destruct o as [s|]; [|done]. unfold or_empty; simpl.
  by destruct (String.eqb_spec s "") as [->|].
Qed.

Lemma truthy_Some s : truthy (Some s) = true <-> s <> "".
Proof.
  simpl. destruct (String.eqb_spec s ""); split; intros; done.
Qed.

Section Ordering.
Variable localeCompare : string -> string -> Z.

#[local] Abbreviation cmp := (compareRequests localeCompare).
#[local] Abbreviation prepare := (_prepareData localeCompare).
#[local] Abbreviation in_place := (sorted_in_place localeCompare).

Lemma compareRequests_spec a b :
  cmp a b = spec_order localeCompare a b.
Proof.
  unfold compareRequests, spec_order, js_gt, js_lt.
  rewrite !or_empty_default.
  destruct (projectOrder a) as [x|], (projectOrder b) as [y|]; try done.
  destruct (Z.compare_spec x y), (Z.ltb_spec y x), (Z.ltb_spec x y);
    try done; lia.
Qed.

Lemma _prepareData_sorted_in_place items :
  prepare items = in_place items.
Proof. by destruct items. Qed.

Lemma _prepareData_perm items : prepare items ≡ₚ items.
Proof. rewrite _prepareData_sorted_in_place. apply Array_sort_perm. Qed.

Lemma _prepareData_ids items : _id <$> prepare items ≡ₚ _id <$> items.
Proof. by rewrite _prepareData_perm. Qed.


Section Collation.
Hypothesis localeCompare_antisym :
  forall s t, 0 < localeCompare s t -> localeCompare t s <= 0.

Lemma compareRequests_antisym a b :
  0 < cmp a b -> cmp b a <= 0.
Proof.
  rewrite !compareRequests_spec. unfold spec_order.
  destruct (projectOrder a) as [x|], (projectOrder b) as [y|];
    try apply localeCompare_antisym.
  rewrite (Z.compare_antisym x y).
  destruct (x ?= y); simpl; try lia. apply localeCompare_antisym.
Qed.

Lemma compareRequests_trans a b c :
  (forall s t u, localeCompare s t <= 0 -> localeCompare t u <= 0 ->
                 localeCompare s u <= 0) ->
  is_Some (projectOrder a) -> is_Some (projectOrder b) ->
  is_Some (projectOrder c) ->
  keeps cmp a b -> keeps cmp b c -> keeps cmp a c.
Proof.
  intros Htrans [x Hx] [y Hy] [z Hz]. unfold keeps.
  rewrite !compareRequests_spec. unfold spec_order. rewrite Hx, Hy, Hz.
  destruct (Z.compare_spec x y), (Z.compare_spec y z), (Z.compare_spec x z);
    try lia; subst; try lia. apply Htrans.
Qed.



End Collation.

End Ordering.

(** ** State bookkeeping *)

Lemma with_calls_nil st : with_calls [] st = st.
Proof. destruct st. unfold with_calls; simpl. by rewrite app_nil_r. Qed.

Lemma with_calls_app cs1 cs2 st :
  with_calls cs2 (with_calls cs1 st) = with_calls (cs1 ++ cs2) st.
Proof. unfold with_calls; simpl. by rewrite app_assoc. Qed.

Lemma set_querying_querying b st : querying (set_querying b st) = Some b.
Proof. unfold set_querying. by case_decide. Qed.

Lemma set_querying_frame b st :
  projectId (set_querying b st) = projectId st /\
  fullQuery (set_querying b st) = fullQuery st /\
  data (set_querying b st) = data st /\
  dbcalls (set_querying b st) = dbcalls st /\
  next_ref (set_querying b st) = next_ref st.
Proof. unfold set_querying. by case_decide. Qed.

Lemma set_querying_dbcalls b st : dbcalls (set_querying b st) = dbcalls st.
Proof. apply set_querying_frame. Qed.

Lemma set_querying_fullQuery b st : fullQuery (set_querying b st) = fullQuery st.
Proof. apply set_querying_frame. Qed.

Lemma set_querying_events b st :
  events (set_querying b st) =
  events st ++ (if decide (querying st = Some b) then [] else [QueryingEvent b]).
Proof.
  unfold set_querying. case_decide; simpl; [by rewrite app_nil_r|done].
Qed.

Lemma set_querying_with_calls b cs st :
  set_querying b (with_calls cs st) = with_calls cs (set_querying b st).
Proof. unfold set_querying; simpl. by case_decide. Qed.

Lemma with_calls_fold {A} (calls : list (DbCall * Outcome A)) st :
  fold_left (fun st call => with_calls [fst call] st) calls st =
  with_calls (fst <$> calls) st.
Proof.
  revert st. induction calls as [|c calls IH]; intros st; simpl.
  - by rewrite with_calls_nil.
  - by rewrite IH, with_calls_app.
Qed.

Lemma await_all_run {A} (calls : list (DbCall * Outcome A)) st :
  await_all calls st = (with_calls (fst <$> calls) st, Promise_all (snd <$> calls)).
Proof. unfold await_all, await. simpl. by rewrite with_calls_fold. Qed.

Lemma resolved_docs_cons item rs :
  resolved_docs (item :: rs) =
  match (if truthy (KeyRow.error item) then None else KeyRow.doc item) with
  | Some d => d :: resolved_docs rs
  | None => resolved_docs rs
  end.
Proof. done. Qed.

Lemma collect_resolved_docs (rs : list KeyRow.t) (acc : list Request) :
  fold_left
    (fun result item =>
       match KeyRow.doc item with
       | Some d => if negb (truthy (KeyRow.error item)) then result ++ [d] else result
       | None => result
       end) rs acc = acc ++ resolved_docs rs.
Proof.
  revert acc. induction rs as [|item rs IH]; intros acc.
  - simpl. by rewrite app_nil_r.
  - rewrite resolved_docs_cons. simpl. rewrite IH.
    destruct (KeyRow.doc item) as [d|], (truthy (KeyRow.error item)); simpl;
      try done.
    by rewrite <- app_assoc.
Qed.


(** ** The paths of [query] *)

Section QueryPaths.
Variable localeCompare : string -> string -> Z.
Variable db : PouchDB.
Variable P : string.

#[local] Abbreviation query_try := (query_try localeCompare db P).

Lemma query_try_project_rejected st cause :
  projectDb_get db P = Rejected cause ->
  query_try st = (with_calls [ProjectGet P] st, Rejected cause).
Proof. intros H. run. by rewrite H. Qed.

Section Step1.
Variable doc : ProjectDoc.
Hypothesis project_read : projectDb_get db P = Resolved doc.
Hypothesis keys_listed : default [] (requests doc) <> [].

#[local] Abbreviation keys := (default [] (requests doc)).

Lemma query_try_bulk_resolved st rs :
  savedDb_allDocs_keys db keys = Resolved (mkResponse (Some rs)) ->
  query_try st =
  (set_querying false (with_calls [ProjectGet P; SavedAllDocsKeys keys] st),
   Resolved (_setDataScope (fullQuery st)
               (_prepareData localeCompare (resolved_docs rs)))).
Proof.
  intros H. run. rewrite project_read; simpl.
  destruct keys as [|k ks] eqn:Hkeys; [done|]. simpl.
  rewrite H; simpl. rewrite with_calls_app.
  by rewrite (collect_resolved_docs rs []).
Qed.

Lemma query_try_bulk_rejected st cause :
  savedDb_allDocs_keys db keys = Rejected cause ->
  query_try st =
  (with_calls [ProjectGet P; SavedAllDocsKeys keys] st, Rejected cause).
Proof.
  intros H. run. rewrite project_read; simpl.
  destruct keys as [|k ks] eqn:Hkeys; [done|]. simpl.
  rewrite H; simpl. by rewrite with_calls_app.
Qed.

Lemma query_try_bulk_malformed st :
  savedDb_allDocs_keys db keys = Resolved (mkResponse None) ->
  query_try st =
  (with_calls [ProjectGet P; SavedAllDocsKeys keys] st,
   Rejected undefined_forEach).
Proof.
  intros H. run. rewrite project_read; simpl.
  destruct keys as [|k ks] eqn:Hkeys; [done|]. simpl.
  rewrite H; simpl. by rewrite with_calls_app.
Qed.
End Step1.

Section Step2.
Variable doc : ProjectDoc.
Hypothesis project_read : projectDb_get db P = Resolved doc.
Hypothesis no_keys : default [] (requests doc) = [].

#[local] Abbreviation fetches rs :=
  ((fun item => savedDb_get db (Row.id item)) <$> matching P rs).
#[local] Abbreviation fallback_calls rs :=
  ([ProjectGet P; SavedAllDocs] ++
   ((fun item => SavedGet (Row.id item)) <$> matching P rs)).

Lemma query_try_scan_rejected st cause :
  savedDb_allDocs db = Rejected cause ->
  query_try st = (with_calls [ProjectGet P; SavedAllDocs] st, Rejected cause).
Proof.
  intros H. run. rewrite project_read; simpl. rewrite no_keys; simpl.
  rewrite H; simpl. by rewrite with_calls_app.
Qed.

Lemma query_try_scan_malformed st :
  savedDb_allDocs db = Resolved (mkResponse None) ->
  query_try st =
  (with_calls [ProjectGet P; SavedAllDocs] st, Rejected undefined_filter).
Proof.
  intros H. run. rewrite project_read; simpl. rewrite no_keys; simpl.
  rewrite H; simpl. by rewrite with_calls_app.
Qed.

Lemma query_try_fetch_rejected st rs cause :
  savedDb_allDocs db = Resolved (mkResponse (Some rs)) ->
  Promise_all (fetches rs) = Rejected cause ->
  query_try st = (with_calls (fallback_calls rs) st, Rejected cause).
Proof.
  intros H Hall. run. rewrite project_read; simpl. rewrite no_keys; simpl.
  rewrite H; simpl. rewrite !with_calls_fold.
  rewrite <- !list_fmap_compose. unfold compose; simpl.
  fold (matching P rs). rewrite Hall. by rewrite !with_calls_app.
Qed.

Lemma query_try_fetch_resolved st rs docs :
  savedDb_allDocs db = Resolved (mkResponse (Some rs)) ->
  Promise_all (fetches rs) = Resolved docs ->
  query_try st =
  (set_querying false (with_calls (fallback_calls rs) st),
   Resolved (_setDataScope (fullQuery st)
               (sorted_in_place localeCompare docs))).
Proof.
  intros H Hall. run. rewrite project_read; simpl. rewrite no_keys; simpl.
  rewrite H; simpl. rewrite !with_calls_fold.
  rewrite <- !list_fmap_compose. unfold compose; simpl.
  fold (matching P rs). rewrite Hall. by rewrite !with_calls_app.
Qed.
End Step2.
End QueryPaths.

Section QueryOutcome.
Variable localeCompare : string -> string -> Z.
Variable db : PouchDB.

#[local] Abbreviation run_query := (query localeCompare db).
#[local] Abbreviation try_block := (query_try localeCompare db).

Lemma query_missing id st :
  truthy id = false -> run_query id st = (st, Rejected missing_id).
Proof. intros H. unfold query. by rewrite H. Qed.

Lemma query_run id st :
  truthy id = true ->
  run_query id st =
  match try_block (default "" id) (set_querying true st) with
  | (st1, Resolved requests) => (st1, Resolved requests)
  | (st1, Rejected cause) =>
      (dispatchEvent (SendAnalytics (report cause)) (set_querying false st1),
       Resolved [])
  end.
Proof.
  intros H. unfold query. rewrite H. simpl.
  unfold try_catch, exec, mbind, M_bind, bind. simpl.
  by destruct (query_try _ _) as [st1 [r|c]].
Qed.

(** Every failure of the lookup makes the [try] block throw its cause. *)
Lemma lookup_fails_throws P cause st :
  lookup_fails db P cause ->
  exists calls, try_block P st = (with_calls calls st, Rejected cause).
Proof.
  destruct 1; eexists.
  - by apply query_try_project_rejected.
  - by eapply query_try_bulk_rejected.
  - by eapply query_try_bulk_malformed.
  - by eapply query_try_scan_rejected.
  - by eapply query_try_scan_malformed.
  - by eapply query_try_fetch_rejected.
Qed.

(** The [try] block either throws the cause of a failed lookup, or clears
    [querying] and returns; it scans all request documents exactly when the
    project document was read and lists no request ids. *)
Lemma query_try_outcome P st :
  exists calls,
    ((exists cause, lookup_fails db P cause /\
                    try_block P st = (with_calls calls st, Rejected cause)) \/
     (exists requests,
         try_block P st =
         (set_querying false (with_calls calls st), Resolved requests))) /\
    (SavedAllDocs ∈ calls <->
     exists doc, projectDb_get db P = Resolved doc /\
                 default [] (requests doc) = []).
Proof.
  destruct (projectDb_get db P) as [doc|c] eqn:Hget.
  2:{ eexists; split.
      - left; eexists; split; [by constructor|].
        by apply query_try_project_rejected.
      - split; [|by intros (doc & ? & _)].
        intros [?|Hin]%elem_of_cons; [done|]. by apply elem_of_nil in Hin. }
  destruct (default [] (requests doc)) as [|k ks] eqn:Hkeys.
  - assert (forall calls,
               SavedAllDocs ∈ [ProjectGet P; SavedAllDocs] ++ calls <->
               exists doc0, Resolved doc = Resolved doc0 /\
                            default [] (requests doc0) = []) as Hscanned.
    { intros calls. split; [by eauto|]. intros _.
      rewrite elem_of_app, !elem_of_cons. by left; right; left. }
    destruct (savedDb_allDocs db) as [[[rs|]]|c] eqn:Hscan.
    + destruct (Promise_all ((fun item => savedDb_get db (Row.id item))
                               <$> matching P rs)) as [docs|c] eqn:Hall.
      * eexists; split; [|apply Hscanned].
        right; eexists. by eapply query_try_fetch_resolved.
      * eexists; split; [|apply Hscanned].
        left; eexists; split; [by eapply fetch_rejected|].
        by eapply query_try_fetch_rejected.
    + exists ([ProjectGet P; SavedAllDocs] ++ []); split; [|apply Hscanned].
      left; eexists; split; [by eapply scan_malformed|].
      by eapply query_try_scan_malformed.
    + exists ([ProjectGet P; SavedAllDocs] ++ []); split; [|apply Hscanned].
      left; eexists; split; [by eapply scan_rejected|].
      by eapply query_try_scan_rejected.
  - assert (default [] (requests doc) <> []) as Hne by by rewrite Hkeys.
    assert (SavedAllDocs ∈ [ProjectGet P; SavedAllDocsKeys (k :: ks)] <->
            exists doc0, Resolved doc = Resolved doc0 /\
                         default [] (requests doc0) = []) as Hbulked.
    { split; [|intros (doc0 & [= <-] & Hk); congruence].
      intros [?|[?|Hin]%elem_of_cons]%elem_of_cons; [done..|].
      by apply elem_of_nil in Hin. }
    destruct (savedDb_allDocs_keys db (default [] (requests doc)))
      as [[[rs|]]|c] eqn:Hbulk; rewrite <- Hkeys in Hbulked.
    + eexists; split; [|apply Hbulked].
      right; eexists. by eapply query_try_bulk_resolved.
    + eexists; split; [|apply Hbulked].
      left; eexists; split; [by eapply bulk_read_malformed|].
      by eapply query_try_bulk_malformed.
    + eexists; split; [|apply Hbulked].
      left; eexists; split; [by eapply bulk_read_rejected|].
      by eapply query_try_bulk_rejected.
Qed.

(** What [query] leaves alone, and what it dispatches. *)
Lemma query_effects id st :
  let st' := fst (run_query id st) in
  projectId st' = projectId st /\ fullQuery st' = fullQuery st /\
  data st' = data st /\ next_ref st' = next_ref st /\
  exists evs, events st' = events st ++ evs /\
              Forall (fun e => forall p a, e <> DataEvent p a) evs.
Proof.
  destruct (truthy id) eqn:Hid.
  2:{ rewrite query_missing by done. simpl. repeat split; try done.
      exists []. by rewrite app_nil_r. }
  rewrite query_run by done.
  destruct (query_try_outcome (default "" id) (set_querying true st))
    as (calls & [(c & _ & ->)|(r & ->)] & _); simpl.
  - rewrite set_querying_with_calls. simpl.
    destruct (set_querying_frame false (set_querying true st))
      as (-> & -> & -> & _ & ->).
    destruct (set_querying_frame true st) as (-> & -> & -> & _ & ->).
    repeat split; try done.
    rewrite !set_querying_events, <- !app_assoc. eexists; split; [done|].
    repeat case_decide; repeat constructor; done.
  - rewrite set_querying_with_calls. simpl.
    destruct (set_querying_frame false (set_querying true st))
      as (-> & -> & -> & _ & ->).
    destruct (set_querying_frame true st) as (-> & -> & -> & _ & ->).
    repeat split; try done.
    rewrite !set_querying_events, <- !app_assoc. eexists; split; [done|].
    repeat case_decide; repeat constructor; done.
Qed.
End QueryOutcome.

Lemma new_calls_with_calls calls st st' :
  dbcalls st' = dbcalls (with_calls calls st) -> new_calls st st' = calls.
Proof. unfold new_calls. intros ->. simpl. apply drop_app_length. Qed.

Lemma key_row_answers resolve k : answers resolve k (key_row resolve k).
Proof.
  unfold answers, key_row. destruct (resolve k); simpl; split; auto.
Qed.

(** [String_indexOf] finds the needle exactly when it occurs. *)
Lemma String_indexOf_contains s needle :
  needle <> "" -> (String_indexOf s needle <> -1 <-> contains s needle).
Proof.
  intros Hne. unfold String_indexOf, contains.
  destruct (index 0 needle s) as [n|] eqn:Hidx.
  - split; [intros _|lia]. exists n. eapply index_correct1, Hidx.
  - split; [done|]. intros [m Hm].
    by eapply (index_correct3 0 m needle s) in Hidx; [|done|lia].
Qed.

Lemma matching_spec P rs item :
  P <> "" -> (In item (matching P rs) <-> In item rs /\ contains (Row.id item) P).
Proof.
  intros HP. unfold matching. rewrite filter_In.
  rewrite <- (String_indexOf_contains _ _ HP).
  destruct (Z.eqb_spec (String_indexOf (Row.id item) P) (-1)); simpl;
    intuition congruence.
Qed.

(** ** The query engine *)


(** A store that is down makes every lookup fail with the store's error. *)
Lemma lookup_fails_store_down cause P : lookup_fails (PouchDB_down cause) P cause.
Proof. by apply project_read_rejected. Qed.

(** C10.  [query(id)] never assigns [data]: whatever [id] and the state, after
    the call (resolved or rejected) [data], [projectId] and [fullQuery] are what
    they were, and no [data] event was dispatched; only [querying], the events
    it brings and the returned value change. *)
Theorem query_leaves_data (localeCompare : string -> string -> Z)
  (db : PouchDB) (id : option string) (st : State) :
  let st' := fst (query localeCompare db id st) in
  data st' = data st /\
  projectId st' = projectId st /\
  fullQuery st' = fullQuery st /\
  exists evs, events st' = events st ++ evs /\
              Forall (fun e => forall p a, e <> DataEvent p a) evs.
Proof.
  destruct (query_effects localeCompare db id st) as (? & ? & ? & _ & ?).
  by repeat split.
Qed.



(** C2, the claim at a project without a document: request [P4/x] carries the
    project id, yet [query('P4')] does not scan the requests; the rejected read
    of the project document is reported and the result is empty. *)
Lemma query_absent_project_no_fallback :
  projectDb_get store_legacy "P4" = Rejected not_found /\
  (exists rs, savedDb_allDocs store_legacy = Resolved (mkResponse (Some rs)) /\
              matching "P4" rs = [Row.mk "P4/x"]) /\
  snd (query codeunitCompare store_legacy (Some "P4") initial) = Resolved [] /\
  dbcalls (fst (query codeunitCompare store_legacy (Some "P4") initial))
    = [ProjectGet "P4"] /\
  events (fst (query codeunitCompare store_legacy (Some "P4") initial))
    = [QueryingEvent true; QueryingEvent false; SendAnalytics "missing"] /\
  ~ took_fallback initial
      (fst (query codeunitCompare store_legacy (Some "P4") initial)).
Proof.
  split; [reflexivity|]. split; [eexists; split; reflexivity|].
  split; [reflexivity|]. split; [reflexivity|]. split; [reflexivity|].
  unfold took_fallback. intros Hin. vm_compute in Hin.
  apply elem_of_cons in Hin as [?|Hin]; [done|]. by apply elem_of_nil in Hin.
Qed.

(** C2, amended.  For a non-empty project id [P], [query(P)] takes the legacy
    fallback (it scans all request documents) exactly when the project
    document is read and its [requests] list is missing or empty.  When the
    read of the project document rejects, the only store call is that read,
    the rejection is reported and the result is the empty list.  On the
    fallback the scan keeps exactly the rows whose identifier contains [P],
    each kept document is fetched on its own, and the fetched documents are
    returned sorted and scoped. *)
Theorem query_fallback_condition (localeCompare : string -> string -> Z)
  (db : PouchDB) (st : State) (P : string) :
  P <> "" ->
  let st' := fst (query localeCompare db (Some P) st) in
  let result := snd (query localeCompare db (Some P) st) in
  (took_fallback st st' <->
   exists doc, projectDb_get db P = Resolved doc /\ default [] (requests doc) = []) /\
  (forall cause, projectDb_get db P = Rejected cause ->
     result = Resolved [] /\
     new_calls st st' = [ProjectGet P] /\
     last (events st') = Some (SendAnalytics (report cause))) /\
  (forall doc rs docs,
     projectDb_get db P = Resolved doc ->
     default [] (requests doc) = [] ->
     savedDb_allDocs db = Resolved (mkResponse (Some rs)) ->
     Promise_all ((fun item => savedDb_get db (Row.id item)) <$> matching P rs)
       = Resolved docs ->
     (forall item, In item (matching P rs) <-> In item rs /\ contains (Row.id item) P) /\
     new_calls st st' =
       [ProjectGet P; SavedAllDocs]
       ++ ((fun item => SavedGet (Row.id item)) <$> matching P rs) /\
     result = Resolved (_setDataScope (fullQuery st) (sorted_in_place localeCompare docs))).
Proof.
  intros HP. simpl.
  assert (truthy (Some P) = true) as Hid by by apply truthy_Some.
  rewrite query_run by done. simpl. split; [|split].
  - destruct (query_try_outcome localeCompare db P (set_querying true st))
      as (calls & [(c & _ & ->)|(r & ->)] & <-); unfold took_fallback;
      erewrite new_calls_with_calls; try done; simpl;
      rewrite ?set_querying_with_calls; simpl; by rewrite !set_querying_dbcalls.
  - intros cause Hget.
    rewrite (query_try_project_rejected _ _ _ _ _ Hget). simpl.
    split; [done|]. split.
    + apply new_calls_with_calls. simpl. rewrite ?set_querying_with_calls. simpl.
      by rewrite !set_querying_dbcalls.
    + by rewrite last_snoc.
  - intros doc rs docs Hget Hkeys Hscan Hall.
    rewrite (query_try_fetch_resolved _ _ _ _ Hget Hkeys _ _ _ Hscan Hall). simpl.
    split; [intros item; by apply matching_spec|]. split.
    + apply new_calls_with_calls. simpl. rewrite ?set_querying_with_calls. simpl.
      by rewrite !set_querying_dbcalls.
    + by rewrite set_querying_fullQuery.
Qed.

Lemma query_fallback_condition_witness :
  (took_fallback initial
     (fst (query codeunitCompare store_legacy (Some "P3") initial)) <->
   exists doc, projectDb_get store_legacy "P3" = Resolved doc /\
               default [] (requests doc) = []) /\
  snd (query codeunitCompare store_legacy (Some "P3") initial)
    = Resolved [scoped LegacyOne; scoped LegacyTwo].
Proof.
  pose proof (query_fallback_condition codeunitCompare store_legacy initial "P3")
    as H.
  destruct H as (Hiff & _ & _); [discriminate|].
  split; [exact Hiff|reflexivity].
Defined.

(** ** The ordering step *)








(** ** Arrays: search, upsert and splice *)

Lemma Array_indexOf_range {A} `{EqDecision A} (l : list A) x :
  -1 <= Array_indexOf l x.
Proof.
  induction l as [|y l IH]; simpl; [lia|].
  destruct (decide (y = x)); [lia|].
  destruct (Z.eqb_spec (Array_indexOf l x) (-1)); lia.
Qed.

Lemma Array_indexOf_absent {A} `{EqDecision A} (l : list A) x :
  (Array_indexOf l x =? -1) = negb (bool_decide (x ∈ l)).
Proof.
  induction l as [|y l IH]; simpl.
  - done.
  - pose proof (Array_indexOf_range l x) as Hr.
    destruct (decide (y = x)) as [->|Hy].
    + rewrite bool_decide_eq_true_2; [done|]. by left.
    + destruct (Z.eqb_spec (Array_indexOf l x) (-1)) as [Heq|Hne].
      * simpl. rewrite bool_decide_eq_false_2; [done|].
        intros [?|Hin]%elem_of_cons; [done|].
        symmetry in IH. apply negb_true_iff, bool_decide_eq_false in IH. done.
      * destruct (Z.eqb_spec (Array_indexOf l x + 1) (-1)); [lia|].
        rewrite bool_decide_eq_true_2; [done|]. right.
        symmetry in IH. apply negb_false_iff, bool_decide_eq_true in IH. done.
Qed.

(** [~ids.indexOf(x)] is truthy exactly when [x] is among [ids]. *)
Lemma lnot_indexOf_member (ids : list string) x :
  negb (Z.lnot (Array_indexOf ids x) =? 0) = bool_decide (x ∈ ids).
Proof.
  pose proof (Array_indexOf_absent ids x) as H.
  unfold Z.lnot.
  destruct (Z.eqb_spec (Array_indexOf ids x) (-1)) as [Heq|Hne];
    destruct (Z.eqb_spec (Z.pred (- Array_indexOf ids x)) 0);
    destruct (bool_decide (x ∈ ids)); simpl in *; try done; lia.
Qed.

Lemma Array_findIndex_range {A} (p : A -> bool) l : -1 <= Array_findIndex p l.
Proof.
  induction l as [|y l IH]; simpl; [lia|].
  destruct (p y); [lia|]. destruct (Z.eqb_spec (Array_findIndex p l) (-1)); lia.
Qed.

(** The search by [_id], then [push] or the assignment [items[index] = request],
    is the upsert by the record's own identifier. *)
Lemma findIndex_upsert request items :
  (if Array_findIndex (fun item => String.eqb (_id item) (_id request)) items
      =? -1
   then items ++ [request]
   else <[Z.to_nat (Array_findIndex
                      (fun item => String.eqb (_id item) (_id request)) items)
          := request]> items) = upsert request items.
Proof.
  unfold upsert. induction items as [|x rest IH]; simpl; [done|].
  destruct (String.eqb (_id x) (_id request)); [done|].
  pose proof (Array_findIndex_range
                (fun item => String.eqb (_id item) (_id request)) rest) as Hr.
  simpl in IH.
  destruct (Z.eqb_spec (Array_findIndex
              (fun item => String.eqb (_id item) (_id request)) rest) (-1))
    as [Heq|Hne]; simpl.
  - by rewrite <- IH.
  - destruct (Z.eqb_spec (Array_findIndex
              (fun item => String.eqb (_id item) (_id request)) rest + 1) (-1));
      [lia|].
    rewrite <- IH. rewrite Z2Nat.inj_add by lia.
    rewrite Nat.add_comm. done.
Qed.

Lemma replace_or_append_ids key r items y :
  y ∈ _id <$> replace_or_append key r items ->
  y = _id r \/ y ∈ _id <$> items.
Proof.
  induction items as [|x rest IH]; simpl.
  - intros [->|Hin]%elem_of_cons; [by left|]. by apply elem_of_nil in Hin.
  - destruct (String.eqb (_id x) key); simpl.
    + intros [->|Hin]%elem_of_cons; [by left|]. right. by right.
    + intros [->|Hin]%elem_of_cons; [right; by left|].
      destruct (IH Hin) as [?|?]; [by left|right; by right].
Qed.

Lemma upsert_NoDup r items :
  NoDup (_id <$> items) -> NoDup (_id <$> upsert r items).
Proof.
  unfold upsert. induction items as [|x rest IH]; simpl.
  - intros _. apply NoDup_singleton.
  - intros [Hx Hrest]%NoDup_cons.
    destruct (String.eqb_spec (_id x) (_id r)) as [Heq|Hne]; simpl.
    + apply NoDup_cons. by rewrite <- Heq.
    + apply NoDup_cons. split; [|by apply IH].
      intros [?|?]%replace_or_append_ids; [by apply Hne|by apply Hx].
Qed.

Lemma upsert_member r items : In r (upsert r items).
Proof.
  unfold upsert. induction items as [|x rest IH]; simpl; [by left|].
  destruct (String.eqb (_id x) (_id r)); simpl; auto.
Qed.

(** The backwards loop of [_checkDeleted] filters the part it has visited. *)
Lemma splice_loop_filter ids n items changed :
  (n <= length items)%nat ->
  splice_loop ids n items changed =
  (remaining ids (take n items) ++ drop n items,
   changed || removes ids (take n items)).
Proof.
  revert items changed. induction n as [|i IH]; intros items changed Hn.
  - simpl. by rewrite drop_0, orb_false_r.
  - destruct (lookup_lt_is_Some_2 items i) as [it Hit]; [lia|].
    simpl. rewrite Hit. rewrite lnot_indexOf_member.
    rewrite (take_S_r _ _ _ Hit). unfold remaining, removes.
    rewrite List.filter_app, existsb_app. simpl.
    destruct (bool_decide (_id it ∈ ids)) eqn:Hmem; simpl.
    + assert (length (take i items) = i) as Hlen by (rewrite length_take; lia).
      rewrite delete_take_drop.
      rewrite IH by (rewrite length_app, Hlen; lia).
      rewrite take_app_length' by done. rewrite drop_app_length' by done.
      unfold remaining, removes. rewrite app_nil_r.
      f_equal. by rewrite !orb_true_r.
    + rewrite IH by lia. unfold remaining, removes.
      rewrite orb_false_r, <- app_assoc. simpl.
      by rewrite (drop_S _ _ _ Hit).
Qed.

Lemma splice_loop_all ids items :
  splice_loop ids (length items) items false
  = (remaining ids items, removes ids items).
Proof.
  rewrite splice_loop_filter by done.
  by rewrite take_ge, drop_all, app_nil_r.
Qed.

(** ** Publishing *)

Lemma assign_data_publishes items st :
  fresh_refs st -> publishes items st (assign_data items st).
Proof.
  unfold fresh_refs, publishes, assign_data, new_array, set_data, same_array.
  simpl. destruct (data st) as [a|]; [|done]. intros Hlt.
  by destruct (Nat.eqb_spec (arr_ref a) (next_ref st)); [lia|].
Qed.

Lemma assign_data_current items st :
  current (assign_data items st) = items \/
  current (assign_data items st) = current st.
Proof.
  unfold assign_data, new_array, set_data, same_array, current. simpl.
  destruct (data st) as [a|]; [|by left].
  destruct (arr_ref a =? next_ref st)%nat; [by right|by left].
Qed.

Lemma assign_data_fresh_refs items st :
  fresh_refs st -> fresh_refs (assign_data items st).
Proof.
  intros H. rewrite (assign_data_publishes items st H).
  unfold fresh_refs. simpl. lia.
Qed.

Lemma publishes_current items st st' : publishes items st st' -> current st' = items.
Proof. by intros ->. Qed.

(** ** Live Sync: the handlers *)

Lemma current_data st :
  (match data st with Some a => arr_items a | None => [] end) = current st.
Proof. done. Qed.

(** The guard of [_requestObjectChanged] is the association test. *)
Lemma associated_indexOf request project :
  (Array_indexOf
     (Some <$>
        match projects request with
        | Some ps =>
            (if truthy (legacyProject request)
             then [default "" (legacyProject request)] else []) ++ ps
        | None =>
            if truthy (legacyProject request)
            then [default "" (legacyProject request)] else []
        end) project =? -1) = negb (associated request project).
Proof.
  rewrite Array_indexOf_absent. f_equal.
  assert (forall l : list string,
             match projects request with Some ps => l ++ ps | None => l end
             = l ++ default [] (projects request)) as ->.
  { intros l. destruct (projects request); simpl; [done|by rewrite app_nil_r]. }
  unfold associated. destruct project as [pid|].
  2:{ apply bool_decide_eq_false. intros (x & ? & _)%list_elem_of_fmap. done. }
  apply eq_true_iff_eq.
  rewrite bool_decide_eq_true, orb_true_iff, andb_true_iff, !bool_decide_eq_true.
  rewrite (list_elem_of_fmap_inj Some), elem_of_app.
  destruct (legacyProject request) as [s|]; simpl.
  - destruct (String.eqb_spec s ""); simpl.
    + rewrite elem_of_nil. intuition congruence.
    + rewrite elem_of_cons, elem_of_nil. intuition congruence.
  - rewrite elem_of_nil. intuition congruence.
Qed.

Section Handlers.
Variable localeCompare : string -> string -> Z.

Lemma _requestObjectChanged_ignored e st :
  cancelable e = true \/
  associated (Changed.request (detail e)) (projectId st) = false ->
  _requestObjectChanged localeCompare e st = st.
Proof.
  unfold _requestObjectChanged. destruct (cancelable e); [done|].
  intros [?|Hassoc]; [done|]. by rewrite associated_indexOf, Hassoc.
Qed.

Lemma _requestObjectChanged_upsert e st :
  cancelable e = false ->
  associated (Changed.request (detail e)) (projectId st) = true ->
  _requestObjectChanged localeCompare e st =
  assign_data
    (sorted_in_place localeCompare (upsert (Changed.request (detail e)) (current st)))
    st.
Proof.
  intros Hc Hassoc. unfold _requestObjectChanged.
  rewrite Hc, associated_indexOf, Hassoc. simpl.
  rewrite current_data. f_equal.
  destruct (current st) as [|x rest] eqn:Hcur; [done|].
  simpl length. simpl Nat.eqb. cbv iota.
  rewrite (findIndex_upsert (Changed.request (detail e)) (x :: rest)).
  apply _prepareData_sorted_in_place.
Qed.

Lemma _checkDeleted_removal ids st :
  fresh_refs st -> removal ids st (_checkDeleted ids st).
Proof.
  intros Hfresh. unfold removal, _checkDeleted, current.
  destruct (data st) as [arr|] eqn:Hdata; [|done].
  destruct (arr_items arr) as [|x rest] eqn:Hitems; [done|].
  rewrite <- Hitems. simpl length.
  assert ((length (arr_items arr) =? 0)%nat = false) as ->
      by by rewrite Hitems.
  rewrite splice_loop_all.
  destruct (removes ids (arr_items arr)); [|done].
  by apply assign_data_publishes.
Qed.

Lemma _checkDeleted_nil st : _checkDeleted [] st = st.
Proof.
  unfold _checkDeleted. destruct (data st) as [arr|]; [|done].
  destruct (length (arr_items arr) =? 0)%nat; [done|].
  rewrite splice_loop_all.
  assert (removes [] (arr_items arr) = false) as ->; [|done].
  unfold removes. induction (arr_items arr); [done|]. simpl. done.
Qed.

(** A deletion notification acts as [_checkDeleted] on the ids it carries. *)
Lemma notify_deletion n st :
  is_deletion n ->
  notify localeCompare n st = _checkDeleted (deleted_ids n) st.
Proof.
  destruct n as [e|e|e]; [done|..]; intros _; simpl.
  - unfold _requestObjectDeleted. destruct (cancelable e).
    { by rewrite _checkDeleted_nil. }
    destruct (truthy (Deleted.id (detail e))); simpl; [done|].
    by rewrite _checkDeleted_nil.
  - unfold _requestObjectsDeleted. destruct (cancelable e).
    { by rewrite _checkDeleted_nil. }
    destruct (BulkDeleted.items (detail e)) as [[|i ids]|]; simpl;
      by rewrite ?_checkDeleted_nil.
Qed.
End Handlers.

Lemma fresh_refs_state_P1 : fresh_refs state_P1.
Proof. unfold fresh_refs. simpl. lia. Qed.

(** C5, the claim at a record whose identifier just changed: the entry stored
    under the previous id [r-beta] is not found through [oldId]; the code
    appends the record and keeps the old entry, where the specified handler
    replaces it. *)
Lemma changed_ignores_previous_id :
  Changed.oldId (detail renamed_event) = Some "r-beta" /\
  current state_P1 = [scoped Alpha; scoped Beta] /\
  current (_requestObjectChanged codeunitCompare renamed_event state_P1)
    = [scoped Alpha; scoped Beta; Renamed] /\
  current (spec_requestObjectChanged codeunitCompare renamed_event state_P1)
    = [scoped Alpha; Renamed].
Proof. repeat split; reflexivity. Qed.

(** C5, amended.  A Changed notification is ignored when it is provisional,
    and ignored, [data] keeping its array and its content, when the record is
    not associated with the current [projectId] through its [legacyProject] or
    its [projects] list.  Otherwise the handler looks for an entry with the
    record's own identifier ([oldId] is not consulted), replaces it or appends
    the record, sorts without reducing any field, and publishes the result as
    a new array; with no list, or an empty one, the list becomes [[record]]. *)
Theorem requestObjectChanged_effect (localeCompare : string -> string -> Z)
  (e : CustomEvent Changed.t) (st : State) :
  fresh_refs st ->
  let request := Changed.request (detail e) in
  let st' := _requestObjectChanged localeCompare e st in
  (cancelable e = true -> st' = st) /\
  (associated request (projectId st) = false -> st' = st) /\
  (cancelable e = false -> associated request (projectId st) = true ->
   publishes (sorted_in_place localeCompare (upsert request (current st))) st st' /\
   In request (current st') /\
   (current st = [] -> current st' = [request])).
Proof.
  intros Hfresh. simpl. split; [|split].
  - intros Hc. apply _requestObjectChanged_ignored. by left.
  - intros Ha. apply _requestObjectChanged_ignored. by right.
  - intros Hc Ha. rewrite _requestObjectChanged_upsert by done.
    pose proof (assign_data_publishes
                  (sorted_in_place localeCompare
                     (upsert (Changed.request (detail e)) (current st)))
                  st Hfresh) as Hpub.
    split; [done|]. rewrite (publishes_current _ _ _ Hpub). split.
    + apply (Permutation_in (l := upsert (Changed.request (detail e)) (current st))).
      * symmetry. apply Array_sort_perm.
      * apply upsert_member.
    + by intros ->.
Qed.

Lemma requestObjectChanged_effect_witness :
  publishes [scoped Alpha; scoped Beta; Renamed] state_P1
    (_requestObjectChanged codeunitCompare renamed_event state_P1).
Proof.
  pose proof (requestObjectChanged_effect codeunitCompare renamed_event state_P1
                fresh_refs_state_P1) as (_ & _ & H).
  destruct H as (H & _); [reflexivity|reflexivity|]. exact H.
Defined.

(** C6.  A Deleted or BulkDeleted notification acts on the ids it carries,
    none when it is provisional or carries no id.  Every entry of the current
    list whose identifier is among them is removed and the other entries stay
    as they are, in their order; the new list is published, once, exactly when
    an entry was removed, and nothing at all happens when nothing matched or
    when there is no list. *)
Theorem deletion_effect (localeCompare : string -> string -> Z)
  (n : Notification) (st : State) :
  fresh_refs st ->
  is_deletion n ->
  removal (deleted_ids n) st (notify localeCompare n st).
Proof.
  intros Hfresh Hn. rewrite notify_deletion by done.
  by apply _checkDeleted_removal.
Qed.

Lemma deletion_effect_witness :
  publishes [scoped Alpha] state_P1
    (notify codeunitCompare
       (request_objects_deleted
          (mkEvent false (BulkDeleted.mk (Some ["r-beta"; "r-unknown"]))))
       state_P1).
Proof.
  apply (deletion_effect codeunitCompare
           (request_objects_deleted
              (mkEvent false (BulkDeleted.mk (Some ["r-beta"; "r-unknown"]))))
           state_P1).
  - exact fresh_refs_state_P1.
  - exact I.
Defined.

Lemma remaining_nil ids items :
  remaining ids items = [] -> forall it, In it items -> _id it ∈ ids.
Proof.
  unfold remaining. induction items as [|x rest IH]; simpl; [done|].
  destruct (bool_decide (_id x ∈ ids)) eqn:Hx; simpl; [|done].
  intros Hrest it [<-|Hin]; [by apply bool_decide_eq_true in Hx|by apply IH].
Qed.

Lemma remaining_keeps ids items it :
  In it items -> _id it ∉ ids -> In it (remaining ids items).
Proof.
  intros Hin Hid. unfold remaining. apply filter_In. split; [done|].
  by rewrite bool_decide_eq_false_2.
Qed.

(** C9, the claim at a list with one entry: after a lookup that succeeded,
    the deletion of that entry publishes the empty list. *)
Lemma deletion_empties_data :
  events state_P5
    = [QueryingEvent true; QueryingEvent false;
       DataEvent (Some "P5") {| arr_ref := 0; arr_items := [scoped Only] |}] /\
  data state_P5 = Some {| arr_ref := 0; arr_items := [scoped Only] |} /\
  data (notify codeunitCompare only_deleted state_P5)
    = Some {| arr_ref := 1; arr_items := [] |} /\
  last (events (notify codeunitCompare only_deleted state_P5))
    = Some (DataEvent (Some "P5") {| arr_ref := 1; arr_items := [] |}).
Proof. repeat split; reflexivity. Qed.

Lemma query_failed localeCompare db id st cause :
  truthy id = true ->
  lookup_fails db (default "" id) cause ->
  snd (query localeCompare db id st) = Resolved [].
Proof.
  intros Hid Hf. rewrite query_run by done.
  destruct (lookup_fails_throws localeCompare db _ cause
              (set_querying true st) Hf) as [calls ->].
  done.
Qed.

(** [projectId = value] with a new, non-empty [value]: the result of [query]
    becomes [data]. *)
Lemma set_projectId_assigns localeCompare db value st :
  projectId st <> value ->
  truthy value = true ->
  exists st1 requests,
    query localeCompare db value
      {| projectId := value; fullQuery := fullQuery st; data := data st;
         querying := querying st; events := events st;
         dbcalls := dbcalls st; next_ref := next_ref st |}
    = (st1, Resolved requests) /\
    data st1 = data st /\ next_ref st1 = next_ref st /\
    set_projectId localeCompare db value st = assign_data requests st1.
Proof.
  intros Hne Hid. unfold set_projectId. rewrite decide_False by done.
  unfold _autoQuery. rewrite Hid. simpl.
  unfold mbind, M_bind, bind, exec.
  pose proof (query_effects localeCompare db value
                {| projectId := value; fullQuery := fullQuery st; data := data st;
                   querying := querying st; events := events st;
                   dbcalls := dbcalls st; next_ref := next_ref st |})
    as (_ & _ & Hdata & Hnext & _).
  rewrite query_run in * by done.
  destruct (query_try _ _ _ _) as [st1 [r|c]]; simpl in *.
  - by eexists _, _.
  - by eexists _, _.
Qed.

(** C9, amended.  A deletion notification never creates a list, keeps every
    entry whose identifier is not among the deleted ids, and so leaves [data]
    empty only if it was empty before or if every entry matched a deleted id.
    A lookup that fails, started by the assignment of a new project id, sets
    [data] to the empty list. *)
Theorem deletion_keeps_unmatched (localeCompare : string -> string -> Z)
  (n : Notification) (st : State) :
  fresh_refs st ->
  is_deletion n ->
  let st' := notify localeCompare n st in
  (data st = None -> data st' = None) /\
  (forall it, In it (current st) -> _id it ∉ deleted_ids n -> In it (current st')) /\
  (current st' = [] ->
   current st = [] \/ forall it, In it (current st) -> _id it ∈ deleted_ids n) /\
  (forall db P cause,
      P <> "" -> projectId st <> Some P -> lookup_fails db P cause ->
      data (set_projectId localeCompare db (Some P) st)
      = Some {| arr_ref := next_ref st; arr_items := [] |}).
Proof.
  intros Hfresh Hn. simpl.
  pose proof (_checkDeleted_removal (deleted_ids n) st Hfresh) as Hrem.
  rewrite <- (notify_deletion localeCompare) in Hrem by done.
  unfold removal in Hrem. repeat split.
  - intros Hnone. unfold current in Hrem. rewrite Hnone in Hrem.
    simpl in Hrem. by rewrite Hrem.
  - intros it Hin Hid. destruct (removes _ _).
    + rewrite (publishes_current _ _ _ Hrem). by apply remaining_keeps.
    + by rewrite Hrem.
  - intros Hempty. destruct (removes _ _).
    + right. apply remaining_nil.
      by rewrite <- (publishes_current _ _ _ Hrem).
    + left. by rewrite <- Hrem.
  - intros db P cause HP Hne Hf.
    assert (truthy (Some P) = true) as Hid by by apply truthy_Some.
    destruct (set_projectId_assigns localeCompare db (Some P) st Hne Hid)
      as (st1 & r & Hq & Hdata & Hnext & ->).
    pose proof (query_failed localeCompare db (Some P)
                  {| projectId := Some P; fullQuery := fullQuery st;
                     data := data st; querying := querying st;
                     events := events st; dbcalls := dbcalls st;
                     next_ref := next_ref st |} cause Hid Hf) as Hr.
    rewrite Hq in Hr. simpl in Hr. injection Hr as ->.
    assert (fresh_refs st1) as Hfresh1.
    { unfold fresh_refs. by rewrite Hdata, Hnext. }
    rewrite (assign_data_publishes [] st1 Hfresh1). simpl. by rewrite Hnext.
Qed.

Lemma deletion_keeps_unmatched_witness :
  In (scoped Alpha)
     (current (notify codeunitCompare
                 (request_object_deleted (mkEvent false (Deleted.mk (Some "r-beta"))))
                 state_P1)).
Proof.
  pose proof (deletion_keeps_unmatched codeunitCompare
                (request_object_deleted (mkEvent false (Deleted.mk (Some "r-beta"))))
                state_P1 fresh_refs_state_P1 I) as (_ & H & _).
  apply H.
  - left. reflexivity.
  - simpl. intros [?|Hin]%elem_of_cons; [done|]. by apply elem_of_nil in Hin.
Defined.

(** ** The duplicate-free invariant *)

Lemma _setDataScope_ids fullQuery items :
  _id <$> _setDataScope fullQuery items = _id <$> items.
Proof.
  unfold _setDataScope. destruct fullQuery; [done|].
  by rewrite <- list_fmap_compose.
Qed.

Lemma sorted_in_place_NoDup localeCompare items :
  NoDup (_id <$> items) -> NoDup (_id <$> sorted_in_place localeCompare items).
Proof.
  intros H. unfold sorted_in_place. by rewrite Array_sort_perm.
Qed.

Lemma remaining_NoDup ids items :
  NoDup (_id <$> items) -> NoDup (_id <$> remaining ids items).
Proof.
  unfold remaining. induction items as [|x rest IH]; simpl; [done|].
  intros [Hx Hrest]%NoDup_cons.
  destruct (bool_decide (_id x ∈ ids)); simpl; [by apply IH|].
  apply NoDup_cons. split; [|by apply IH].
  intros (y & Hy & Hin)%list_elem_of_fmap. apply Hx.
  apply list_elem_of_fmap. exists y. split; [done|].
  apply list_elem_of_In. apply list_elem_of_In in Hin.
  by apply filter_In in Hin as [? _].
Qed.

Section Invariant.
Variable localeCompare : string -> string -> Z.

Lemma query_try_duplicate_free db P st st1 result :
  duplicate_free_results db P ->
  query_try localeCompare db P st = (st1, Resolved result) ->
  NoDup (_id <$> result).
Proof.
  intros [Hbulk Hfetch].
  destruct (projectDb_get db P) as [doc|c] eqn:Hget.
  2:{ by rewrite (query_try_project_rejected _ _ _ _ _ Hget). }
  destruct (default [] (requests doc)) as [|k ks] eqn:Hkeys.
  - destruct (savedDb_allDocs db) as [[[rs|]]|c] eqn:Hscan.
    + destruct (Promise_all ((fun item => savedDb_get db (Row.id item))
                               <$> matching P rs)) as [docs|c] eqn:Hall.
      * rewrite (query_try_fetch_resolved _ _ _ _ Hget Hkeys _ _ _ Hscan Hall).
        intros [= _ <-]. rewrite _setDataScope_ids.
        apply sorted_in_place_NoDup. by eapply Hfetch.
      * by rewrite (query_try_fetch_rejected _ _ _ _ Hget Hkeys _ _ _ Hscan Hall).
    + by rewrite (query_try_scan_malformed _ _ _ _ Hget Hkeys _ Hscan).
    + by rewrite (query_try_scan_rejected _ _ _ _ Hget Hkeys _ _ Hscan).
  - assert (default [] (requests doc) <> []) as Hne by by rewrite Hkeys.
    destruct (savedDb_allDocs_keys db (default [] (requests doc)))
      as [[[rs|]]|c] eqn:Hread.
    + rewrite (query_try_bulk_resolved _ _ _ _ Hget Hne _ _ Hread).
      intros [= _ <-]. rewrite _setDataScope_ids.
      rewrite _prepareData_sorted_in_place.
      apply sorted_in_place_NoDup. by eapply Hbulk.
    + by rewrite (query_try_bulk_malformed _ _ _ _ Hget Hne _ Hread).
    + by rewrite (query_try_bulk_rejected _ _ _ _ Hget Hne _ _ Hread).
Qed.

Lemma query_duplicate_free db id st st1 result :
  duplicate_free_results db (default "" id) ->
  query localeCompare db id st = (st1, Resolved result) ->
  NoDup (_id <$> result).
Proof.
  intros Hdb. destruct (truthy id) eqn:Hid.
  2:{ by rewrite query_missing. }
  rewrite query_run by done.
  destruct (query_try _ _ _ _) as [st2 [r|c]] eqn:Htry.
  - intros [= _ <-]. by eapply query_try_duplicate_free.
  - intros [= _ <-]. apply NoDup_nil_2.
Qed.

Lemma set_projectId_current db value st :
  current (set_projectId localeCompare db value st) = current st \/
  exists st0 st1,
    query localeCompare db value st0
    = (st1, Resolved (current (set_projectId localeCompare db value st))).
Proof.
  destruct (decide (projectId st = value)) as [Heq|Hne].
  { left. unfold set_projectId. by rewrite decide_True. }
  destruct (truthy value) eqn:Hid.
  2:{ left. unfold set_projectId, _autoQuery. rewrite decide_False by done.
      by rewrite Hid. }
  destruct (set_projectId_assigns localeCompare db value st Hne Hid)
    as (st1 & r & Hq & Hdata & _ & ->).
  destruct (assign_data_current r st1) as [->| ->].
  - right. by eexists _, _.
  - left. unfold current. by rewrite Hdata.
Qed.

Lemma _checkDeleted_current ids st :
  current (_checkDeleted ids st) = current st \/
  current (_checkDeleted ids st) = remaining ids (current st).
Proof.
  unfold _checkDeleted. destruct (data st) as [arr|] eqn:Hdata; [|by left].
  destruct (length (arr_items arr) =? 0)%nat; [by left|].
  rewrite splice_loop_all. destruct (removes ids (arr_items arr)); [|by left].
  destruct (assign_data_current (remaining ids (arr_items arr)) st) as [->| ->].
  - right. unfold current. by rewrite Hdata.
  - by left.
Qed.

Lemma step_duplicate_free st st' :
  step localeCompare st st' -> duplicate_free st -> duplicate_free st'.
Proof.
  unfold duplicate_free. intros [db value st0 Hdb|value st0|db id st0|n st0] Hinv.
  - destruct (set_projectId_current db value st0) as [->|(s0 & s1 & Hq)]; [done|].
    by eapply query_duplicate_free.
  - done.
  - unfold current. by destruct (query_effects localeCompare db id st0)
      as (_ & _ & -> & _).
  - destruct n as [e|e|e].
    + simpl. destruct (cancelable e) eqn:Hc.
      { rewrite _requestObjectChanged_ignored; [done|by left]. }
      destruct (associated (Changed.request (detail e)) (projectId st0)) eqn:Ha.
      2:{ rewrite _requestObjectChanged_ignored; [done|by right]. }
      rewrite _requestObjectChanged_upsert by done.
      destruct (assign_data_current
                  (sorted_in_place localeCompare
                     (upsert (Changed.request (detail e)) (current st0))) st0)
        as [->| ->]; [|done].
      by apply sorted_in_place_NoDup, upsert_NoDup.
    + rewrite notify_deletion by done.
      destruct (_checkDeleted_current
                  (deleted_ids (request_object_deleted e)) st0)
        as [->| ->]; [done|by apply remaining_NoDup].
    + rewrite notify_deletion by done.
      destruct (_checkDeleted_current
                  (deleted_ids (request_objects_deleted e)) st0)
        as [->| ->]; [done|by apply remaining_NoDup].
Qed.

Lemma step_fresh_refs st st' :
  step localeCompare st st' -> fresh_refs st -> fresh_refs st'.
Proof.
  intros [db value st0 Hdb|value st0|db id st0|n st0] Hinv.
  - destruct (decide (projectId st0 = value)) as [Heq|Hne].
    { unfold set_projectId. by rewrite decide_True. }
    destruct (truthy value) eqn:Hid.
    2:{ unfold set_projectId, _autoQuery. rewrite decide_False by done.
        by rewrite Hid. }
    destruct (set_projectId_assigns localeCompare db value st0 Hne Hid)
      as (st1 & r & Hq & Hdata & Hnext & ->).
    apply assign_data_fresh_refs. unfold fresh_refs. by rewrite Hdata, Hnext.
  - done.
  - unfold fresh_refs.
    by destruct (query_effects localeCompare db id st0) as (_ & _ & -> & -> & _).
  - destruct n as [e|e|e].
    + simpl. destruct (cancelable e) eqn:Hc.
      { rewrite _requestObjectChanged_ignored; [done|by left]. }
      destruct (associated (Changed.request (detail e)) (projectId st0)) eqn:Ha.
      2:{ rewrite _requestObjectChanged_ignored; [done|by right]. }
      rewrite _requestObjectChanged_upsert by done.
      by apply assign_data_fresh_refs.
    + pose proof (_checkDeleted_removal
                    (deleted_ids (request_object_deleted e)) st0 Hinv) as Hrem.
      rewrite <- (notify_deletion localeCompare) in Hrem by done.
      unfold removal in Hrem. destruct (removes _ _); [|by rewrite Hrem].
      rewrite Hrem. unfold fresh_refs. simpl. lia.
    + pose proof (_checkDeleted_removal
                    (deleted_ids (request_objects_deleted e)) st0 Hinv) as Hrem.
      rewrite <- (notify_deletion localeCompare) in Hrem by done.
      unfold removal in Hrem. destruct (removes _ _); [|by rewrite Hrem].
      rewrite Hrem. unfold fresh_refs. simpl. lia.
Qed.

(** Every reachable element satisfies the hypothesis of the Live Sync
    theorems. *)
Lemma reachable_fresh_refs st : reachable localeCompare st -> fresh_refs st.
Proof.
  intros H.
  apply (rtc_ind_r (R := step localeCompare) (fun s => fresh_refs s) initial);
    [done| |exact H].
  intros y z _ Hstep IH. by eapply step_fresh_refs.
Qed.
End Invariant.

(** C7.  In every state an element can reach (by assignments of [projectId]
    while the store returns duplicate-free results, assignments of
    [fullQuery], calls of [query], and Changed, Deleted and BulkDeleted
    notifications) the [data] list never has two entries with the same
    identifier. *)
Theorem data_duplicate_free (localeCompare : string -> string -> Z) (st : State) :
  reachable localeCompare st -> duplicate_free st.
Proof.
  intros H.
  apply (rtc_ind_r (R := step localeCompare) (fun s => duplicate_free s) initial);
    [| |exact H].
  - apply NoDup_nil_2.
  - intros y z _ Hstep IH. by eapply step_duplicate_free.
Qed.

Lemma duplicate_free_results_P1 : duplicate_free_results store_P1 "P1".
Proof.
  split.
  - intros doc rs [= <-] [= <-]. apply (bool_decide_unpack _). by vm_compute.
  - intros rs docs [= <-]. vm_compute. intros [= <-]. apply NoDup_nil_2.
Qed.

Lemma data_duplicate_free_witness :
  duplicate_free
    (notify codeunitCompare (request_object_changed renamed_event) state_P1).
Proof.
  apply (data_duplicate_free codeunitCompare).
  eapply rtc_l; [|eapply rtc_l; [|apply rtc_refl]].
  - apply (step_projectId codeunitCompare store_P1 (Some "P1") initial).
    exact duplicate_free_results_P1.
  - apply (step_notify codeunitCompare (request_object_changed renamed_event)).
Defined.

(** ** The Polymer revision *)

(** With the Polymer [query], a failing scan is reported and then re-thrown:
    the caller sees the rejection. *)
Lemma polymer_query_rethrows db id st cause :
  truthy id = true ->
  savedDb_allDocs db = Rejected cause ->
  snd (Polymer.query db id st) = Rejected cause /\
  last (Polymer.events (fst (Polymer.query db id st)))
    = Some (Polymer.console_error cause).
Proof.
  intros Hid Hscan. unfold Polymer.query, Polymer.query_chain.
  rewrite Hid, Hscan. simpl. split; [done|].
  by rewrite last_app.
Qed.

(** The Polymer [query] does not assign [data] either. *)
Lemma polymer_query_leaves_data db id st :
  Polymer.data (fst (Polymer.query db id st)) = Polymer.data st.
Proof.
  unfold Polymer.query, Polymer._setQuerying.
  destruct (truthy id); simpl; [|done].
  destruct (Polymer.query_chain _ _ _); repeat case_decide; done.
Qed.

(** With the Polymer handler, a change notification without [oldId] for a
    request already listed appends a second entry with the same identifier. *)
Lemma polymer_changed_without_oldId_duplicates :
  _id <$> default [] (Polymer.data
                        (Polymer._requestObjectChanged beta_changed polymer_state))
  = ["r-beta"; "r-beta"].
Proof. reflexivity. Qed.

(** ** Remarks *)

(** A store that is down: the lookup fails, [query] reports the store's
    error and resolves to the empty list. *)
Lemma query_store_down :
  query codeunitCompare (PouchDB_down not_found) (Some "P1") initial
  = ({| projectId := None; fullQuery := false; data := None;
        querying := Some false;
        events := [QueryingEvent true; QueryingEvent false; SendAnalytics "missing"];
        dbcalls := [ProjectGet "P1"]; next_ref := 0 |},
     Resolved []).
Proof. reflexivity. Qed.

(** The bulk read answers one row per key: a project document that lists an
    id twice yields that document twice, so the duplicate-free results the
    invariant assumes need a duplicate-free [requests] list. *)
Lemma duplicate_keys_duplicate_entries :
  snd (query codeunitCompare store_P6 (Some "P6") initial)
  = Resolved [scoped Alpha; scoped Alpha].
Proof. reflexivity. Qed.

(** A missing [projectOrder] ties with every other one, so the order is not
    transitive: the list below has its neighbours in order and is returned as
    it is, with [projectOrder] 2 before [projectOrder] 1. *)
Lemma missing_order_not_transitive :
  Sorted (keeps (spec_order codeunitCompare)) mixed_orders /\
  _prepareData codeunitCompare mixed_orders = mixed_orders /\
  projectOrder <$> mixed_orders = [Some 2; None; Some 1].
Proof.
  split; [|split; reflexivity].
  repeat constructor; unfold keeps; by vm_compute.
Qed.

(** On a list whose records all carry a [projectOrder] the comparator is a
    total preorder, and [_prepareData] returns what any stable sort returns:
    the only ordered permutation that keeps tied records in their order. *)
Lemma _prepareData_any_stable_sort (localeCompare : string -> string -> Z)
  (items items' : list Request) :
  (forall s t, 0 < localeCompare s t -> localeCompare t s <= 0) ->
  (forall s, localeCompare s s = 0) ->
  (forall s t u, localeCompare s t <= 0 -> localeCompare t u <= 0 ->
                 localeCompare s u <= 0) ->
  Forall (fun r => is_Some (projectOrder r)) items ->
  items' ≡ₚ items ->
  Sorted (keeps (compareRequests localeCompare)) items' ->
  (forall a, List.filter (tied (compareRequests localeCompare) a) items'
             = List.filter (tied (compareRequests localeCompare) a) items) ->
  items' = _prepareData localeCompare items.
Proof.
  intros Hanti Hrefl Htrans Hall Hperm Hsorted Hstable.
  rewrite _prepareData_sorted_in_place. rewrite Forall_forall in Hall.
  apply Array_sort_unique; try done.
  - by apply compareRequests_antisym.
  - intros a Ha. unfold keeps. rewrite compareRequests_spec. unfold spec_order.
    destruct (projectOrder a); rewrite ?Z.compare_refl, Hrefl; lia.
  - intros a b c Ha Hb Hc. apply compareRequests_trans; auto.
Qed.

(** * Further properties *)

(** ** The query engine *)

Lemma _setDataScope_nil fullQuery : _setDataScope fullQuery [] = [].
Proof. by destruct fullQuery. Qed.

Ltac traced :=
  apply new_calls_with_calls; simpl; rewrite ?set_querying_with_calls; simpl;
  by rewrite !set_querying_dbcalls.

(** The result of [query] is the scope of one list, the same for every
    element, and its store calls are the same for every element. *)
Lemma query_shape localeCompare db id :
  truthy id = true ->
  exists found,
    forall st,
      snd (query localeCompare db id st)
      = Resolved (_setDataScope (fullQuery st) found) /\
      new_calls st (fst (query localeCompare db id st))
      = store_traffic db (default "" id).
Proof.
  intros Hid. unfold store_traffic.
  destruct (projectDb_get db (default "" id)) as [doc|c] eqn:Hget.
  2:{ exists []. intros st. rewrite query_run by done.
      rewrite (query_try_project_rejected _ _ _ _ _ Hget). simpl.
      rewrite _setDataScope_nil. split; [done|traced]. }
  destruct (default [] (requests doc)) as [|k ks] eqn:Hkeys.
  - destruct (savedDb_allDocs db) as [[[rs|]]|c] eqn:Hscan; simpl.
    + destruct (Promise_all ((fun item => savedDb_get db (Row.id item))
                               <$> matching (default "" id) rs))
        as [docs|c] eqn:Hall.
      * exists (sorted_in_place localeCompare docs). intros st.
        rewrite query_run by done.
        rewrite (query_try_fetch_resolved _ _ _ _ Hget Hkeys _ _ _ Hscan Hall).
        simpl. rewrite set_querying_fullQuery. split; [done|traced].
      * exists []. intros st. rewrite query_run by done.
        rewrite (query_try_fetch_rejected _ _ _ _ Hget Hkeys _ _ _ Hscan Hall).
        simpl. rewrite _setDataScope_nil. split; [done|traced].
    + exists []. intros st. rewrite query_run by done.
      rewrite (query_try_scan_malformed _ _ _ _ Hget Hkeys _ Hscan).
      simpl. rewrite _setDataScope_nil. split; [done|traced].
    + exists []. intros st. rewrite query_run by done.
      rewrite (query_try_scan_rejected _ _ _ _ Hget Hkeys _ _ Hscan).
      simpl. rewrite _setDataScope_nil. split; [done|traced].
  - assert (default [] (requests doc) <> []) as Hne by by rewrite Hkeys.
    destruct (savedDb_allDocs_keys db (default [] (requests doc)))
      as [[[rs|]]|c] eqn:Hbulk.
    + exists (_prepareData localeCompare (resolved_docs rs)). intros st.
      rewrite query_run by done.
      rewrite (query_try_bulk_resolved _ _ _ _ Hget Hne _ _ Hbulk).
      simpl. rewrite set_querying_fullQuery, Hkeys. split; [done|traced].
    + exists []. intros st. rewrite query_run by done.
      rewrite (query_try_bulk_malformed _ _ _ _ Hget Hne _ Hbulk).
      simpl. rewrite _setDataScope_nil, Hkeys. split; [done|traced].
    + exists []. intros st. rewrite query_run by done.
      rewrite (query_try_bulk_rejected _ _ _ _ Hget Hne _ _ Hbulk).
      simpl. rewrite _setDataScope_nil, Hkeys. split; [done|traced].
Qed.

(** X1.  The records [query] returns without [fullQuery] are the reductions
    to [_id], [_rev] and [name] of the records it returns with [fullQuery], in
    the same order. *)
Theorem query_scoped_of_full (localeCompare : string -> string -> Z)
  (db : PouchDB) (id : option string) (st : State) (full : list Request) :
  snd (query localeCompare db id (set_fullQuery true st)) = Resolved full ->
  snd (query localeCompare db id (set_fullQuery false st))
  = Resolved (scoped <$> full).
Proof.
  destruct (truthy id) eqn:Hid.
  2:{ by rewrite query_missing. }
  destruct (query_shape localeCompare db id Hid) as [found Hq].
  destruct (Hq (set_fullQuery true st)) as [-> _].
  destruct (Hq (set_fullQuery false st)) as [-> _].
  simpl. by intros [= <-].
Qed.

Lemma query_scoped_of_full_witness :
  snd (query codeunitCompare store_P1 (Some "P1") (set_fullQuery false initial))
  = Resolved (scoped <$> [Alpha; Beta]).
Proof.
  apply (query_scoped_of_full codeunitCompare store_P1 (Some "P1") initial
           [Alpha; Beta]).
  reflexivity.
Defined.

(** X2.  Of the element, [query] reads [fullQuery] only: two elements with the
    same [fullQuery] get the same outcome from the same store and issue the
    same store calls, whatever their [projectId], [data] and [querying]. *)
Theorem query_reads_fullQuery_only (localeCompare : string -> string -> Z)
  (db : PouchDB) (id : option string) (st1 st2 : State) :
  fullQuery st1 = fullQuery st2 ->
  snd (query localeCompare db id st1) = snd (query localeCompare db id st2) /\
  new_calls st1 (fst (query localeCompare db id st1))
  = new_calls st2 (fst (query localeCompare db id st2)).
Proof.
  intros Hfq. destruct (truthy id) eqn:Hid.
  - destruct (query_shape localeCompare db id Hid) as [found Hq].
    destruct (Hq st1) as [-> ->]. destruct (Hq st2) as [-> ->].
    by rewrite Hfq.
  - rewrite !query_missing by done. simpl. unfold new_calls.
    by rewrite !drop_all.
Qed.

Lemma query_reads_fullQuery_only_witness :
  snd (query codeunitCompare store_P1 (Some "P1") initial)
  = snd (query codeunitCompare store_P1 (Some "P1") state_P5) /\
  new_calls initial (fst (query codeunitCompare store_P1 (Some "P1") initial))
  = new_calls state_P5 (fst (query codeunitCompare store_P1 (Some "P1") state_P5)).
Proof.
  apply (query_reads_fullQuery_only codeunitCompare store_P1 (Some "P1")
           initial state_P5).
  reflexivity.
Defined.

(** X3.  The store calls of [query(P)], for a non-empty [P], are determined by
    the store: first the read of the project document, and nothing more when
    it rejects; then a single bulk read of the listed keys, whatever their
    number and whatever its outcome; or else, when no key is listed, the scan
    followed by one read for each row whose identifier contains [P]. *)
Theorem query_store_traffic (localeCompare : string -> string -> Z)
  (db : PouchDB) (P : string) (st : State) :
  P <> "" ->
  new_calls st (fst (query localeCompare db (Some P) st)) = store_traffic db P.
Proof.
  intros HP.
  assert (truthy (Some P) = true) as Hid by by apply truthy_Some.
  destruct (query_shape localeCompare db (Some P) Hid) as [found Hq].
  apply Hq.
Qed.

Lemma query_store_traffic_witness :
  new_calls state_P1 (fst (query codeunitCompare store_legacy (Some "P3") state_P1))
  = [ProjectGet "P3"; SavedAllDocs; SavedGet "P3/one"; SavedGet "two/P3"].
Proof.
  apply (query_store_traffic codeunitCompare store_legacy "P3" state_P1).
  discriminate.
Defined.

Lemma String_indexOf_empty s : String_indexOf s "" = 0.
Proof. unfold String_indexOf. by destruct s. Qed.

Lemma String_indexOf_contains_any s needle :
  String_indexOf s needle <> -1 <-> contains s needle.
Proof.
  destruct (String.eqb_spec needle "") as [->|Hne].
  - rewrite String_indexOf_empty. split; [intros _|done].
    exists 0%nat. by destruct s.
  - by apply String_indexOf_contains.
Qed.

Lemma List_filter_sublist {A} (f : A -> bool) l : sublist (List.filter f l) l.
Proof.
  induction l as [|x l IH]; simpl; [constructor|].
  destruct (f x); by constructor.
Qed.

(** X4.  [_filterRequests] throws a [TypeError] on a response without [rows];
    otherwise it returns, in their order, exactly the rows whose identifier
    contains [id], which is every row when [id] is empty.  The element is
    left as it is. *)
Theorem filterRequests_keeps_containing (dbResponse : Response Row.t)
  (id : string) (st : State) :
  match rows dbResponse with
  | None => _filterRequests dbResponse id st = (st, Rejected undefined_filter)
  | Some rs =>
      exists kept,
        _filterRequests dbResponse id st = (st, Resolved kept) /\
        sublist kept rs /\
        (forall item, In item kept <-> In item rs /\ contains (Row.id item) id) /\
        (id = "" -> kept = rs)
  end.
Proof.
  unfold _filterRequests. destruct (rows dbResponse) as [rs|]; [|done].
  eexists; split; [done|]. split; [apply List_filter_sublist|]. split.
  - intros item. rewrite filter_In, <- String_indexOf_contains_any.
    destruct (Z.eqb_spec (String_indexOf (Row.id item) id) (-1)); simpl;
      intuition congruence.
  - intros ->. induction rs as [|r rs IH]; simpl; [done|].
    rewrite String_indexOf_empty. simpl. by rewrite IH.
Qed.

(** ** Assignments of [projectId] *)

Lemma assign_data_frame items st :
  projectId (assign_data items st) = projectId st /\
  fullQuery (assign_data items st) = fullQuery st /\
  querying (assign_data items st) = querying st /\
  dbcalls (assign_data items st) = dbcalls st /\
  (events (assign_data items st) = events st /\
   data (assign_data items st) = data st \/
   exists a, events (assign_data items st) = events st ++ [DataEvent (projectId st) a] /\
             data (assign_data items st) = Some a).
Proof.
  unfold assign_data, new_array, set_data. simpl.
  destruct (same_array _ _); simpl; repeat split; try done.
  - by left.
  - right. by eexists.
Qed.

Lemma query_events localeCompare db id st :
  truthy id = true ->
  querying (fst (query localeCompare db id st)) = Some false /\
  exists tail,
    events (fst (query localeCompare db id st))
    = events st
      ++ (if decide (querying st = Some true) then [] else [QueryingEvent true])
      ++ QueryingEvent false :: tail /\
    querying_values tail = [] /\ published tail = [].
Proof.
  intros Hid. rewrite query_run by done.
  destruct (query_try_outcome localeCompare db (default "" id)
              (set_querying true st))
    as (calls & [(c & _ & ->)|(r & ->)] & _); simpl.
  - split; [apply set_querying_querying|].
    exists [SendAnalytics (report c)].
    rewrite set_querying_events. simpl.
    rewrite set_querying_querying, set_querying_events, <- !app_assoc.
    split; [|done]. by case_decide.
  - split; [apply set_querying_querying|].
    exists []. rewrite set_querying_events. simpl.
    rewrite set_querying_querying, set_querying_events, <- !app_assoc.
    split; [|done]. by case_decide.
Qed.

Lemma set_projectId_same localeCompare db value st :
  projectId st = value -> set_projectId localeCompare db value st = st.
Proof. intros H. unfold set_projectId. by rewrite decide_True. Qed.

Lemma set_projectId_falsy localeCompare db value st :
  truthy value = false ->
  set_projectId localeCompare db value st = with_projectId value st.
Proof.
  intros Hid. unfold set_projectId, _autoQuery, with_projectId.
  rewrite Hid. simpl. case_decide as Heq; [|done].
  destruct st; simpl in *. by subst.
Qed.

Lemma set_projectId_projectId localeCompare db value st :
  projectId (set_projectId localeCompare db value st) = value.
Proof.
  destruct (decide (projectId st = value)) as [Heq|Hne].
  { by rewrite set_projectId_same. }
  destruct (truthy value) eqn:Hid.
  2:{ by rewrite set_projectId_falsy. }
  destruct (set_projectId_assigns localeCompare db value st Hne Hid)
    as (st1 & r & Hq & _ & _ & ->).
  destruct (assign_data_frame r st1) as (-> & _).
  pose proof (query_effects localeCompare db value
                (with_projectId value st)) as (Hp & _).
  unfold with_projectId in Hp. rewrite Hq in Hp. exact Hp.
Qed.

(** X5.  After [projectId = value] the property holds [value], and assigning
    the same value again does nothing: no lookup is started and no event is
    dispatched, whatever the store has become. *)
Theorem projectId_assigned_once (localeCompare : string -> string -> Z)
  (db db' : PouchDB) (value : option string) (st : State) :
  projectId (set_projectId localeCompare db value st) = value /\
  set_projectId localeCompare db' value (set_projectId localeCompare db value st)
  = set_projectId localeCompare db value st.
Proof.
  split; [apply set_projectId_projectId|].
  apply set_projectId_same, set_projectId_projectId.
Qed.

(** X6.  Assigning an empty or absent [projectId] changes that property only:
    no store call, no event, and [data] keeps the list of the project shown
    before. *)
Theorem projectId_cleared (localeCompare : string -> string -> Z)
  (db : PouchDB) (value : option string) (st : State) :
  truthy value = false ->
  let st' := set_projectId localeCompare db value st in
  projectId st' = value /\ data st' = data st /\ events st' = events st /\
  dbcalls st' = dbcalls st /\ querying st' = querying st /\
  fullQuery st' = fullQuery st.
Proof.
  intros Hid. simpl. by rewrite set_projectId_falsy.
Qed.

Lemma projectId_cleared_witness :
  projectId (set_projectId codeunitCompare store_P1 (Some "") state_P1) = Some "" /\
  data (set_projectId codeunitCompare store_P1 (Some "") state_P1) = data state_P1 /\
  events (set_projectId codeunitCompare store_P1 (Some "") state_P1) = events state_P1 /\
  dbcalls (set_projectId codeunitCompare store_P1 (Some "") state_P1) = dbcalls state_P1 /\
  querying (set_projectId codeunitCompare store_P1 (Some "") state_P1)
    = querying state_P1 /\
  fullQuery (set_projectId codeunitCompare store_P1 (Some "") state_P1)
    = fullQuery state_P1.
Proof.
  apply (projectId_cleared codeunitCompare store_P1 (Some "") state_P1).
  reflexivity.
Defined.



(** ** What the element keeps true *)

Lemma notify_cases localeCompare n st :
  notify localeCompare n st = st \/
  exists items, notify localeCompare n st = assign_data items st.
Proof.
  destruct n as [e|e|e].
  - simpl. destruct (cancelable e) eqn:Hc.
    { left. apply _requestObjectChanged_ignored. by left. }
    destruct (associated (Changed.request (detail e)) (projectId st)) eqn:Ha.
    + right. eexists. by apply _requestObjectChanged_upsert.
    + left. apply _requestObjectChanged_ignored. by right.
  - rewrite notify_deletion by done. unfold _checkDeleted.
    destruct (data st) as [arr|]; [|by left].
    destruct (length (arr_items arr) =? 0)%nat; [by left|].
    destruct (splice_loop _ _ _ _) as [items [|]]; [right; by eexists|by left].
  - rewrite notify_deletion by done. unfold _checkDeleted.
    destruct (data st) as [arr|]; [|by left].
    destruct (length (arr_items arr) =? 0)%nat; [by left|].
    destruct (splice_loop _ _ _ _) as [items [|]]; [right; by eexists|by left].
Qed.

Lemma published_app evs evs' : published (evs ++ evs') = published evs ++ published evs'.
Proof. apply omap_app. Qed.

Lemma querying_values_app evs evs' :
  querying_values (evs ++ evs') = querying_values evs ++ querying_values evs'.
Proof. apply omap_app. Qed.

Lemma query_published localeCompare db id st :
  published (events (fst (query localeCompare db id st))) = published (events st).
Proof.
  destruct (truthy id) eqn:Hid.
  2:{ by rewrite query_missing. }
  destruct (query_events localeCompare db id st Hid)
    as (_ & tail & -> & _ & Htail).
  rewrite !published_app. simpl. rewrite Htail.
  case_decide; simpl; by rewrite app_nil_r.
Qed.

Lemma query_querying_values localeCompare db id st :
  truthy id = true ->
  querying_values (events (fst (query localeCompare db id st)))
  = querying_values (events st)
    ++ (if decide (querying st = Some true) then [] else [true]) ++ [false].
Proof.
  intros Hid.
  destruct (query_events localeCompare db id st Hid)
    as (_ & tail & -> & Htail & _).
  rewrite !querying_values_app. simpl. rewrite Htail.
  by case_decide.
Qed.

Lemma pairs_snoc {A} (l : list A) n :
  concat (replicate n l) ++ l = concat (replicate (S n) l).
Proof.
  induction n as [|n IH]; simpl; [by rewrite app_nil_r|].
  by rewrite <- app_assoc, IH.
Qed.

Lemma pairs_last n :
  last (concat (replicate n [true; false])) = match n with O => None | S _ => Some false end.
Proof.
  destruct n as [|n]; [done|].
  rewrite <- pairs_snoc. by rewrite last_app.
Qed.

(** A sample of a reachable element: project [P1] shown, then a request
    saved under a new identifier. *)
Lemma attainable_sample :
  attainable codeunitCompare
    (notify codeunitCompare (request_object_changed renamed_event) state_P1).
Proof.
  eapply rtc_l; [|eapply rtc_l; [|apply rtc_refl]].
  - apply (transition_projectId codeunitCompare store_P1 (Some "P1") initial).
  - apply (transition_notify codeunitCompare (request_object_changed renamed_event)).
Qed.

Section Published.
Variable localeCompare : string -> string -> Z.

Lemma assign_data_held items st :
  held_is_published st -> held_is_published (assign_data items st).
Proof.
  intros [Hfresh Hheld]. split; [by apply assign_data_fresh_refs|].
  rewrite (assign_data_publishes items st Hfresh). simpl.
  rewrite published_app. simpl. by rewrite last_snoc.
Qed.

Lemma query_held db id st :
  held_is_published st -> held_is_published (fst (query localeCompare db id st)).
Proof.
  intros [Hfresh Hheld]. unfold held_is_published, fresh_refs.
  rewrite query_published.
  by destruct (query_effects localeCompare db id st) as (_ & _ & -> & -> & _).
Qed.

Lemma transition_held st st' :
  transition localeCompare st st' -> held_is_published st -> held_is_published st'.
Proof.
  intros [db value st0|value st0|db id st0|n st0] Hinv.
  - destruct (decide (projectId st0 = value)) as [Heq|Hne].
    { by rewrite set_projectId_same. }
    destruct (truthy value) eqn:Hid.
    2:{ by rewrite set_projectId_falsy. }
    destruct (set_projectId_assigns localeCompare db value st0 Hne Hid)
      as (st1 & r & Hq & _ & _ & ->).
    apply assign_data_held.
    pose proof (query_held db value (with_projectId value st0) Hinv) as H.
    unfold with_projectId in H. by rewrite Hq in H.
  - done.
  - by apply query_held.
  - destruct (notify_cases localeCompare n st0) as [->|[items ->]]; [done|].
    by apply assign_data_held.
Qed.
End Published.

(** X8.  In every state an element can reach, [data] is exactly the array the
    last [data] event carried, and is absent when none was dispatched: the
    list never changes without being published. *)
Theorem data_is_last_published (localeCompare : string -> string -> Z)
  (st : State) :
  attainable localeCompare st -> last (published (events st)) = data st.
Proof.
  intros H.
  enough (held_is_published st) as [_ Hheld] by done.
  apply (rtc_ind_r (R := transition localeCompare)
           (fun s => held_is_published s) initial); [done| |exact H].
  intros y z _ Hstep IH. by eapply transition_held.
Qed.

Lemma data_is_last_published_witness :
  last (published
          (events (notify codeunitCompare (request_object_changed renamed_event)
                     state_P1)))
  = data (notify codeunitCompare (request_object_changed renamed_event) state_P1).
Proof.
  apply (data_is_last_published codeunitCompare). exact attainable_sample.
Defined.

Section Querying.
Variable localeCompare : string -> string -> Z.

Lemma assign_data_paired items st :
  querying_paired st -> querying_paired (assign_data items st).
Proof.
  intros [[n Hn] Hlast]. unfold querying_paired.
  destruct (assign_data_frame items st)
    as (_ & _ & -> & _ & [[-> _]|(a & -> & _)]).
  - split; [by exists n|done].
  - rewrite querying_values_app. simpl. rewrite app_nil_r.
    split; [by exists n|done].
Qed.

Lemma query_paired db id st :
  querying_paired st -> querying_paired (fst (query localeCompare db id st)).
Proof.
  intros [[n Hn] Hlast]. destruct (truthy id) eqn:Hid.
  2:{ rewrite query_missing by done. split; [by exists n|done]. }
  unfold querying_paired.
  destruct (query_events localeCompare db id st Hid) as (-> & _).
  rewrite query_querying_values by done.
  rewrite Hn, pairs_last in Hlast.
  rewrite decide_False by (rewrite Hlast; by destruct n).
  simpl. rewrite Hn. split.
  - exists (S n). apply (pairs_snoc [true; false]).
  - by rewrite last_app.
Qed.

Lemma transition_paired st st' :
  transition localeCompare st st' -> querying_paired st -> querying_paired st'.
Proof.
  intros [db value st0|value st0|db id st0|n st0] Hinv.
  - destruct (decide (projectId st0 = value)) as [Heq|Hne].
    { by rewrite set_projectId_same. }
    destruct (truthy value) eqn:Hid.
    2:{ by rewrite set_projectId_falsy. }
    destruct (set_projectId_assigns localeCompare db value st0 Hne Hid)
      as (st1 & r & Hq & _ & _ & ->).
    apply assign_data_paired.
    pose proof (query_paired db value (with_projectId value st0) Hinv) as H.
    unfold with_projectId in H. by rewrite Hq in H.
  - done.
  - by apply query_paired.
  - destruct (notify_cases localeCompare n st0) as [->|[items ->]]; [done|].
    by apply assign_data_paired.
Qed.
End Querying.

(** X9.  In every state an element can reach, the [querying] events dispatched
    so far come in pairs, [true] then [false], [querying] holds what the last
    of them carried, and so it is never left [true]: every lookup that
    announced its start has announced its end. *)
Theorem querying_events_paired (localeCompare : string -> string -> Z)
  (st : State) :
  attainable localeCompare st ->
  (exists n, querying_values (events st) = concat (replicate n [true; false])) /\
  querying st = last (querying_values (events st)) /\
  querying st <> Some true.
Proof.
  intros H.
  assert (querying_paired st) as [[n Hn] Hlast].
  { apply (rtc_ind_r (R := transition localeCompare)
             (fun s => querying_paired s) initial);
      [|intros y z _ Hstep IH; by eapply transition_paired|exact H].
    split; [by exists 0%nat|done]. }
  split; [by exists n|]. split; [done|].
  rewrite Hlast, Hn, pairs_last. by destruct n.
Qed.

Lemma querying_events_paired_witness :
  (exists n,
      querying_values
        (events (notify codeunitCompare (request_object_changed renamed_event)
                   state_P1))
      = concat (replicate n [true; false])) /\
  querying (notify codeunitCompare (request_object_changed renamed_event) state_P1)
  = last (querying_values
            (events (notify codeunitCompare (request_object_changed renamed_event)
                       state_P1))) /\
  querying (notify codeunitCompare (request_object_changed renamed_event) state_P1)
  <> Some true.
Proof.
  apply (querying_events_paired codeunitCompare). exact attainable_sample.
Defined.

(** ** Live Sync: how the notifications compose *)

Lemma removes_remaining ids items : removes ids (remaining ids items) = false.
Proof.
  unfold removes, remaining. induction items as [|x rest IH]; simpl; [done|].
  destruct (bool_decide (_id x ∈ ids)) eqn:Hx; simpl; [done|].
  by rewrite Hx.
Qed.

Lemma remaining_unmatched ids items :
  removes ids items = false -> remaining ids items = items.
Proof.
  unfold removes, remaining. induction items as [|x rest IH]; simpl; [done|].
  intros [Hx Hrest]%orb_false_elim. rewrite Hx. simpl. by rewrite IH.
Qed.

Lemma remaining_app ids1 ids2 items :
  remaining ids2 (remaining ids1 items) = remaining (ids1 ++ ids2) items.
Proof.
  unfold remaining. induction items as [|x rest IH]; simpl; [done|].
  destruct (bool_decide (_id x ∈ ids1)) eqn:H1; simpl.
  - rewrite IH. rewrite bool_decide_eq_true_2; [done|].
    apply elem_of_app. left. by apply bool_decide_eq_true in H1.
  - apply bool_decide_eq_false in H1.
    destruct (bool_decide (_id x ∈ ids2)) eqn:H2; simpl.
    + rewrite IH. rewrite bool_decide_eq_true_2; [done|].
      apply elem_of_app. right. by apply bool_decide_eq_true in H2.
    + apply bool_decide_eq_false in H2. rewrite IH.
      rewrite bool_decide_eq_false_2; [done|].
      by intros [?|?]%elem_of_app.
Qed.

Lemma remaining_comm ids1 ids2 items :
  remaining (ids1 ++ ids2) items = remaining (ids2 ++ ids1) items.
Proof.
  unfold remaining. apply filter_ext. intros x. f_equal.
  apply bool_decide_ext. rewrite !elem_of_app. tauto.
Qed.

Lemma _checkDeleted_current_remaining ids st :
  fresh_refs st -> current (_checkDeleted ids st) = remaining ids (current st).
Proof.
  intros Hfresh. pose proof (_checkDeleted_removal ids st Hfresh) as Hrem.
  unfold removal in Hrem. destruct (removes ids (current st)) eqn:Hr.
  - exact (publishes_current _ _ _ Hrem).
  - rewrite Hrem. symmetry. by apply remaining_unmatched.
Qed.

Lemma _checkDeleted_fresh_refs ids st :
  fresh_refs st -> fresh_refs (_checkDeleted ids st).
Proof.
  intros Hfresh. pose proof (_checkDeleted_removal ids st Hfresh) as Hrem.
  unfold removal in Hrem. destruct (removes ids (current st)); [|by rewrite Hrem].
  rewrite Hrem. unfold fresh_refs. simpl. lia.
Qed.

Lemma _checkDeleted_twice ids st :
  fresh_refs st -> _checkDeleted ids (_checkDeleted ids st) = _checkDeleted ids st.
Proof.
  intros Hfresh.
  pose proof (_checkDeleted_removal ids (_checkDeleted ids st)
                (_checkDeleted_fresh_refs ids st Hfresh)) as Hrem.
  unfold removal in Hrem.
  by rewrite (_checkDeleted_current_remaining ids st Hfresh), removes_remaining in Hrem.
Qed.

(** X10.  A deletion notification delivered a second time does nothing: the
    element is left exactly as the first delivery left it, with no second
    [data] event. *)
Theorem deletion_twice (localeCompare : string -> string -> Z)
  (n : Notification) (st : State) :
  fresh_refs st ->
  is_deletion n ->
  notify localeCompare n (notify localeCompare n st) = notify localeCompare n st.
Proof.
  intros Hfresh Hn. rewrite !notify_deletion by done.
  by apply _checkDeleted_twice.
Qed.

Lemma deletion_twice_witness :
  notify codeunitCompare (deleted "r-beta")
    (notify codeunitCompare (deleted "r-beta") state_P1)
  = notify codeunitCompare (deleted "r-beta") state_P1.
Proof.
  apply (deletion_twice codeunitCompare (deleted "r-beta") state_P1).
  - exact fresh_refs_state_P1.
  - exact I.
Defined.

(** X11.  Deletions compose: the list left by the deletion of [ids1] followed
    by the deletion of [ids2] is the list left by one deletion of all of
    them, and the order of the two deletions does not matter. *)
Theorem deletions_compose (localeCompare : string -> string -> Z)
  (ids1 ids2 : list string) (st : State) :
  fresh_refs st ->
  current (notify localeCompare (bulk_deleted ids2)
             (notify localeCompare (bulk_deleted ids1) st))
  = current (notify localeCompare (bulk_deleted (ids1 ++ ids2)) st) /\
  current (notify localeCompare (bulk_deleted ids2)
             (notify localeCompare (bulk_deleted ids1) st))
  = current (notify localeCompare (bulk_deleted ids1)
               (notify localeCompare (bulk_deleted ids2) st)).
Proof.
  intros Hfresh. rewrite !notify_deletion by done. simpl.
  rewrite !_checkDeleted_current_remaining
    by (try apply _checkDeleted_fresh_refs; done).
  rewrite !remaining_app. split; [done|apply remaining_comm].
Qed.

Lemma deletions_compose_witness :
  current (notify codeunitCompare (bulk_deleted ["r-alpha"])
             (notify codeunitCompare (bulk_deleted ["r-beta"]) state_P1))
  = current (notify codeunitCompare (bulk_deleted (["r-beta"] ++ ["r-alpha"])) state_P1) /\
  current (notify codeunitCompare (bulk_deleted ["r-alpha"])
             (notify codeunitCompare (bulk_deleted ["r-beta"]) state_P1))
  = current (notify codeunitCompare (bulk_deleted ["r-beta"])
               (notify codeunitCompare (bulk_deleted ["r-alpha"]) state_P1)).
Proof.
  apply (deletions_compose codeunitCompare ["r-beta"] ["r-alpha"] state_P1).
  exact fresh_refs_state_P1.
Defined.

Lemma List_filter_perm {A} (f : A -> bool) l l' :
  l ≡ₚ l' -> List.filter f l ≡ₚ List.filter f l'.
Proof.
  induction 1 as [|x l l' _ IH|x y l|l l' l'' _ IH1 _ IH2]; simpl.
  - done.
  - destruct (f x); by rewrite IH.
  - destruct (f x), (f y); try done. apply Permutation_swap.
  - by rewrite IH1.
Qed.

Lemma remaining_upsert r items :
  remaining [_id r] (upsert r items) = remaining [_id r] items.
Proof.
  assert (bool_decide (_id r ∈ [_id r]) = true) as Hr.
  { apply bool_decide_eq_true. by left. }
  unfold upsert, remaining. induction items as [|x rest IH]; simpl.
  - by rewrite Hr.
  - destruct (String.eqb_spec (_id x) (_id r)) as [Heq|Hne]; simpl.
    + by rewrite Heq, Hr.
    + by rewrite IH.
Qed.

Lemma upsert_length r items :
  length (upsert r items)
  = (length items + if bool_decide (_id r ∈ _id <$> items) then 0 else 1)%nat.
Proof.
  unfold upsert. induction items as [|x rest IH]; simpl; [done|].
  destruct (String.eqb_spec (_id x) (_id r)) as [Heq|Hne]; simpl.
  - rewrite bool_decide_eq_true_2; [lia|]. rewrite Heq. by left.
  - rewrite IH. f_equal.
    assert (_id r ∈ _id <$> rest <-> _id r ∈ _id x :: (_id <$> rest)) as Hiff.
    { rewrite elem_of_cons. split; [by right|]. by intros [Heq|Hin]. }
    by rewrite (bool_decide_ext _ _ Hiff).
Qed.

Lemma upsert_present r items :
  NoDup (_id <$> items) -> In r items -> upsert r items = items.
Proof.
  unfold upsert. induction items as [|x rest IH]; simpl; [done|].
  intros [Hx Hrest]%NoDup_cons [->|Hin].
  - by rewrite String.eqb_refl.
  - destruct (String.eqb_spec (_id x) (_id r)) as [Heq|Hne].
    + exfalso. apply Hx. rewrite Heq. apply list_elem_of_fmap_2.
      by apply list_elem_of_In.
    + by rewrite IH.
Qed.

Section Changed.
Variable localeCompare : string -> string -> Z.
Variable e : CustomEvent Changed.t.
Variable st : State.
Hypothesis fresh : fresh_refs st.
Hypothesis committed : cancelable e = false.
Hypothesis belongs : associated (Changed.request (detail e)) (projectId st) = true.

#[local] Abbreviation record := (Changed.request (detail e)).
#[local] Abbreviation changed := (_requestObjectChanged localeCompare e).

Lemma changed_publishes :
  publishes (sorted_in_place localeCompare (upsert record (current st))) st (changed st).
Proof.
  rewrite _requestObjectChanged_upsert by done. by apply assign_data_publishes.
Qed.

Lemma changed_current :
  current (changed st) = sorted_in_place localeCompare (upsert record (current st)).
Proof. exact (publishes_current _ _ _ changed_publishes). Qed.

Lemma changed_fresh_refs : fresh_refs (changed st).
Proof. rewrite changed_publishes. unfold fresh_refs. simpl. lia. Qed.

Lemma changed_projectId : projectId (changed st) = projectId st.
Proof. by rewrite changed_publishes. Qed.
End Changed.

(** X12.  A record added or updated by a Changed notification and then
    deleted leaves the entries the list had under other identifiers, all of
    them and nothing else. *)
Theorem changed_then_deleted (localeCompare : string -> string -> Z)
  (e : CustomEvent Changed.t) (st : State) :
  fresh_refs st ->
  cancelable e = false ->
  associated (Changed.request (detail e)) (projectId st) = true ->
  _id (Changed.request (detail e)) <> "" ->
  current (notify localeCompare (deleted (_id (Changed.request (detail e))))
             (notify localeCompare (request_object_changed e) st))
  ≡ₚ remaining [_id (Changed.request (detail e))] (current st).
Proof.
  intros Hfresh Hc Ha Hid. rewrite notify_deletion by done. simpl.
  assert (truthy (Some (_id (Changed.request (detail e)))) = true) as Ht
      by by apply truthy_Some.
  simpl in Ht. rewrite Ht. simpl.
  rewrite _checkDeleted_current_remaining by by apply changed_fresh_refs.
  rewrite changed_current by done.
  unfold remaining at 1. unfold sorted_in_place.
  rewrite (List_filter_perm _ _ _ (Array_sort_perm _ _)).
  apply reflexive_eq, remaining_upsert.
Qed.

Lemma changed_then_deleted_witness :
  current (notify codeunitCompare (deleted "r-new")
             (notify codeunitCompare (request_object_changed renamed_event) state_P1))
  ≡ₚ remaining ["r-new"] (current state_P1).
Proof.
  apply (changed_then_deleted codeunitCompare renamed_event state_P1).
  - exact fresh_refs_state_P1.
  - reflexivity.
  - reflexivity.
  - discriminate.
Defined.

(** X13.  On a list without duplicate identifiers, a Changed notification
    delivered a second time leaves the list as the first delivery left it. *)
Theorem changed_twice (localeCompare : string -> string -> Z)
  (e : CustomEvent Changed.t) (st : State) :
  (forall s t, 0 < localeCompare s t -> localeCompare t s <= 0) ->
  fresh_refs st ->
  duplicate_free st ->
  cancelable e = false ->
  associated (Changed.request (detail e)) (projectId st) = true ->
  current (_requestObjectChanged localeCompare e
             (_requestObjectChanged localeCompare e st))
  = current (_requestObjectChanged localeCompare e st).
Proof.
  intros Hanti Hfresh Hdup Hc Ha.
  rewrite (changed_current localeCompare e (_requestObjectChanged localeCompare e st))
    by (try apply changed_fresh_refs; try rewrite changed_projectId; done).
  rewrite changed_current by done.
  rewrite upsert_present.
  - apply Array_sort_idempotent. by apply compareRequests_antisym.
  - by apply sorted_in_place_NoDup, upsert_NoDup.
  - apply (Permutation_in (l := upsert (Changed.request (detail e)) (current st))).
    + symmetry. apply Array_sort_perm.
    + apply upsert_member.
Qed.

Lemma changed_twice_witness :
  current (_requestObjectChanged codeunitCompare renamed_event
             (_requestObjectChanged codeunitCompare renamed_event state_P1))
  = current (_requestObjectChanged codeunitCompare renamed_event state_P1).
Proof.
  apply (changed_twice codeunitCompare renamed_event state_P1).
  - exact codeunitCompare_antisym.
  - exact fresh_refs_state_P1.
  - apply (bool_decide_unpack _). by vm_compute.
  - reflexivity.
  - reflexivity.
Defined.

(** X14.  An accepted Changed notification leaves the entries of the upsert
    and changes the number of entries by at most one: the number stays when
    an entry with the record's identifier was listed, and grows by one when
    none was. *)
Theorem changed_count (localeCompare : string -> string -> Z)
  (e : CustomEvent Changed.t) (st : State) :
  fresh_refs st ->
  cancelable e = false ->
  associated (Changed.request (detail e)) (projectId st) = true ->
  let st' := _requestObjectChanged localeCompare e st in
  current st' ≡ₚ upsert (Changed.request (detail e)) (current st) /\
  length (current st')
  = (length (current st)
     + if bool_decide (_id (Changed.request (detail e)) ∈ _id <$> current st)
       then 0 else 1)%nat.
Proof.
  intros Hfresh Hc Ha. simpl. rewrite changed_current by done.
  unfold sorted_in_place. split; [apply Array_sort_perm|].
  by rewrite Array_sort_length, upsert_length.
Qed.

Lemma changed_count_witness :
  current (_requestObjectChanged codeunitCompare renamed_event state_P1)
  ≡ₚ upsert Renamed (current state_P1) /\
  length (current (_requestObjectChanged codeunitCompare renamed_event state_P1))
  = 3%nat.
Proof.
  apply (changed_count codeunitCompare renamed_event state_P1).
  - exact fresh_refs_state_P1.
  - reflexivity.
  - reflexivity.
Defined.

(** X15.  No notification makes the element touch the store or its other
    properties: [projectId], [fullQuery] and [querying] stay, no store call is
    made, and the events gain nothing or one [data] event carrying the
    current [projectId] and the new [data]. *)
Theorem notification_frame (localeCompare : string -> string -> Z)
  (n : Notification) (st : State) :
  let st' := notify localeCompare n st in
  projectId st' = projectId st /\ fullQuery st' = fullQuery st /\
  querying st' = querying st /\ dbcalls st' = dbcalls st /\
  (events st' = events st /\ data st' = data st \/
   exists a, events st' = events st ++ [DataEvent (projectId st) a] /\
             data st' = Some a).
Proof.
  simpl. destruct (notify_cases localeCompare n st) as [->|[items ->]].
  - repeat split. by left.
  - apply assign_data_frame.
Qed.

(** ** The element in its page: listening and not listening *)

Lemma addEventListener_elem r x ls :
  x ∈ addEventListener r ls <-> x = r \/ x ∈ ls.
Proof.
  unfold addEventListener. case_bool_decide as Hin.
  - split; [by right|]. by intros [->|?].
  - rewrite elem_of_app, list_elem_of_singleton. tauto.
Qed.

Lemma addEventListener_NoDup r ls : NoDup ls -> NoDup (addEventListener r ls).
Proof.
  intros Hnd. unfold addEventListener. case_bool_decide as Hin; [done|].
  apply NoDup_app. split_and!; [done| |apply NoDup_singleton].
  intros x Hx ->%list_elem_of_singleton. done.
Qed.

Lemma removeEventListener_elem r x ls :
  x ∈ removeEventListener r ls <-> x <> r /\ x ∈ ls.
Proof.
  unfold removeEventListener. rewrite !list_elem_of_In, filter_In.
  rewrite negb_true_iff, bool_decide_eq_false. tauto.
Qed.

Lemma removeEventListener_NoDup r ls : NoDup ls -> NoDup (removeEventListener r ls).
Proof.
  unfold removeEventListener. induction 1 as [|x l Hx Hnd IH]; simpl.
  - constructor.
  - destruct (negb (bool_decide (x = r))); [|done].
    constructor; [|done]. intros Hin. apply Hx.
    by apply (removeEventListener_elem r x l) in Hin as [_ ?].
Qed.

Lemma connectedCallback_NoDup h :
  NoDup (window_listeners h) -> NoDup (window_listeners (connectedCallback h)).
Proof. intros. simpl. by do 3 apply addEventListener_NoDup. Qed.

Lemma disconnectedCallback_NoDup h :
  NoDup (window_listeners h) -> NoDup (window_listeners (disconnectedCallback h)).
Proof. intros. simpl. by do 3 apply removeEventListener_NoDup. Qed.

Lemma connectedCallback_listens h r : r ∈ window_listeners (connectedCallback h).
Proof. simpl. rewrite !addEventListener_elem. destruct r; tauto. Qed.

Lemma disconnectedCallback_listeners h : window_listeners (disconnectedCallback h) = [].
Proof.
  simpl. unfold removeEventListener.
  induction (window_listeners h) as [|r ls IH]; [done|].
  by destruct r.
Qed.

(** The listeners of the event's type run one after the other; with no
    registration twice in the list that is one run or none. *)
Lemma window_dispatch_element localeCompare n h :
  NoDup (window_listeners h) ->
  element (window_dispatch localeCompare n h)
  = if bool_decide (registration_of n ∈ window_listeners h)
    then notify localeCompare n (element h) else element h.
Proof.
  unfold window_dispatch. simpl.
  generalize (element h) as el. generalize (window_listeners h) as ls.
  induction ls as [|r ls IH]; intros el Hnd; simpl; [done|].
  apply NoDup_cons in Hnd as [Hr Hnd]. rewrite IH by done.
  destruct (decide (r = registration_of n)) as [->|Hne].
  - rewrite (bool_decide_eq_true_2 (registration_of n = registration_of n)) by done.
    rewrite (bool_decide_eq_false_2 _ Hr).
    rewrite bool_decide_eq_true_2; [done|by left].
  - rewrite (bool_decide_eq_false_2 (r = registration_of n)) by done.
    assert (registration_of n ∈ ls <-> registration_of n ∈ r :: ls) as Hiff.
    { rewrite elem_of_cons. split; [by right|]. by intros [?|?]. }
    by rewrite (bool_decide_ext _ _ Hiff).
Qed.

Lemma window_dispatch_unheard localeCompare n h :
  registration_of n ∉ window_listeners h ->
  element (window_dispatch localeCompare n h) = element h.
Proof.
  unfold window_dispatch. simpl.
  generalize (element h) as el. generalize (window_listeners h) as ls.
  induction ls as [|r ls IH]; intros el Hr; simpl; [done|].
  apply not_elem_of_cons in Hr as [Hne Hr].
  rewrite bool_decide_eq_false_2 by done. by apply IH.
Qed.

(** X16.  A connected element handles every notification of the bus, and
    handles it once, also when [connectedCallback] has run several times:
    the element after the dispatch is the element after one call of the
    handler. *)
Theorem connected_handles_once (localeCompare : string -> string -> Z)
  (n : Notification) (h : Hosted) :
  NoDup (window_listeners h) ->
  element (window_dispatch localeCompare n (connectedCallback h))
  = notify localeCompare n (element h) /\
  element (window_dispatch localeCompare n (connectedCallback (connectedCallback h)))
  = notify localeCompare n (element h) /\
  aria_hidden (connectedCallback h) = Some "true".
Proof.
  intros Hnd. split_and!; [| |done].
  - rewrite window_dispatch_element by by apply connectedCallback_NoDup.
    rewrite bool_decide_eq_true_2; [done|apply connectedCallback_listens].
  - rewrite window_dispatch_element by by do 2 apply connectedCallback_NoDup.
    rewrite bool_decide_eq_true_2; [done|apply connectedCallback_listens].
Qed.

Lemma connected_handles_once_witness :
  element (window_dispatch codeunitCompare only_deleted
             (connectedCallback
                {| element := state_P5; window_listeners := [];
                   aria_hidden := None |}))
  = notify codeunitCompare only_deleted state_P5.
Proof.
  apply (connected_handles_once codeunitCompare only_deleted
           {| element := state_P5; window_listeners := []; aria_hidden := None |}).
  simpl. constructor.
Defined.

(** X17.  An element that was never connected, or was disconnected, handles no
    notification, however often it had been connected before; connecting it
    again makes it handle them again, once. *)
Theorem disconnected_ignores (localeCompare : string -> string -> Z)
  (n : Notification) (h : Hosted) :
  element (window_dispatch localeCompare n created) = initial /\
  element (window_dispatch localeCompare n (disconnectedCallback h)) = element h /\
  element (window_dispatch localeCompare n
             (connectedCallback (disconnectedCallback h)))
  = notify localeCompare n (element h).
Proof.
  split_and!.
  - done.
  - change (element h) with (element (disconnectedCallback h)).
    apply window_dispatch_unheard. rewrite disconnectedCallback_listeners.
    apply not_elem_of_nil.
  - rewrite window_dispatch_element.
    + rewrite bool_decide_eq_true_2; [done|apply connectedCallback_listens].
    + apply (connectedCallback_NoDup (disconnectedCallback h)).
      rewrite disconnectedCallback_listeners. constructor.
Qed.

(** ** The Polymer revision: order, upsert, failure and deletion *)

Lemma polymer_compareRequests_antisym a b :
  0 < Polymer.compareRequests a b -> Polymer.compareRequests b a <= 0.
Proof.
  assert (forall n m : option Z, js_gt n m = js_lt m n) as Hflip.
  { by intros [x|] [y|]. }
  assert (forall n m : option Z, js_gt n m = true -> js_lt n m = false) as Hexcl.
  { intros [x|] [y|]; simpl; try done. intros ?%Z.ltb_lt. apply Z.ltb_ge. lia. }
  unfold Polymer.compareRequests. rewrite <- !Hflip, (Hflip (projectOrder b)).
  destruct (js_gt (projectOrder a) (projectOrder b)) eqn:Hgt.
  - rewrite (Hexcl _ _ Hgt). lia.
  - destruct (js_lt (projectOrder a) (projectOrder b)) eqn:Hlt; [lia|].
    destruct (Polymer.str_gt (name a) (name b)) eqn:Hsgt.
    + destruct (Polymer.str_gt (name b) (name a)) eqn:Hsgt'.
      * exfalso. revert Hsgt Hsgt'. unfold Polymer.str_gt.
        destruct (name a) as [s|], (name b) as [t|]; try done.
        rewrite (String.compare_antisym s t). by destruct (String.compare t s).
      * destruct (Polymer.str_lt (name b) (name a)); lia.
    + destruct (Polymer.str_lt (name a) (name b)); lia.
Qed.

Lemma Sorted_fmap_on {A B} (R : A -> A -> Prop) (R' : B -> B -> Prop)
  (f : A -> B) (P : A -> Prop) l :
  (forall a b, P a -> P b -> R a b -> R' (f a) (f b)) ->
  Forall P l -> Sorted R l -> Sorted R' (f <$> l).
Proof.
  intros Himp HP Hs. induction Hs as [|x l Hs IH Hhd]; simpl; [constructor|].
  apply Forall_cons in HP as [Hx HP]. constructor; [by apply IH|].
  destruct Hhd as [|y l Hxy]; simpl; constructor.
  apply Forall_cons in HP as [Hy _]. by apply Himp.
Qed.

Lemma polymer_setQuerying_frame value st :
  Polymer.projectId (Polymer._setQuerying value st) = Polymer.projectId st /\
  Polymer.fullQuery (Polymer._setQuerying value st) = Polymer.fullQuery st /\
  Polymer.data (Polymer._setQuerying value st) = Polymer.data st /\
  Polymer.querying (Polymer._setQuerying value st) = Some value.
Proof. unfold Polymer._setQuerying. by case_decide. Qed.

Lemma polymer_prepare_scoped l :
  Polymer._prepareData (scoped <$> l) ≡ₚ Polymer.with_id <$> (scoped <$> l) /\
  Sorted (fun a b => Polymer.str_gt (name a) (name b) = false)
    (Polymer._prepareData (scoped <$> l)) /\
  Forall (fun r => projectOrder r = None /\ other r = [("id", _id r)])
    (Polymer._prepareData (scoped <$> l)).
Proof.
  assert (Polymer._prepareData (scoped <$> l)
          = Polymer.with_id <$> Array_sort Polymer.compareRequests (scoped <$> l))
    as ->.
  { unfold Polymer._prepareData. by destruct l. }
  assert (Forall (fun r => projectOrder r = None /\ other r = [])
            (Array_sort Polymer.compareRequests (scoped <$> l))) as Hall.
  { rewrite Array_sort_perm. apply Forall_fmap, Forall_forall. by intros. }
  split_and!.
  - by rewrite Array_sort_perm.
  - apply (Sorted_fmap_on (keeps Polymer.compareRequests) _ _
             (fun r => projectOrder r = None /\ other r = [])); [|done|].
    + intros a b [Ha _] [Hb _]. unfold keeps, Polymer.compareRequests. simpl.
      rewrite Ha, Hb. simpl. destruct (Polymer.str_gt (name a) (name b)); [lia|done].
    + apply Array_sort_sorted, polymer_compareRequests_antisym.
  - apply Forall_fmap. eapply Forall_impl; [exact Hall|].
    intros r [Hp Ho]. simpl. by rewrite Ho.
Qed.

(** X18.  In the Polymer revision the records are reduced before they are
    ordered: a lookup without [fullQuery] resolves to entries without
    [projectOrder], each with its [_id] copied to [id], in the order of their
    names by code units alone. *)
Theorem polymer_scoped_query_orders_by_name (db : PouchDB) (id : option string)
  (st : Polymer.State) (result : list Request) :
  Polymer.fullQuery st = false ->
  snd (Polymer.query db id st) = Resolved result ->
  Sorted (fun a b => Polymer.str_gt (name a) (name b) = false) result /\
  Forall (fun r => projectOrder r = None /\ other r = [("id", _id r)]) result.
Proof.
  intros Hfull. unfold Polymer.query.
  destruct (truthy id); simpl; [|done].
  destruct (polymer_setQuerying_frame true st) as (_ & -> & _). rewrite Hfull.
  unfold Polymer.query_chain.
  destruct (savedDb_allDocs db) as [response|]; [|done].
  destruct (rows response) as [rs|]; [|done].
  destruct (Promise_all _) as [requests|]; [|done].
  simpl. intros [= <-]. unfold _setDataScope.
  by destruct (polymer_prepare_scoped requests) as (_ & ? & ?).
Qed.

Lemma polymer_scoped_query_orders_by_name_witness :
  Sorted (fun a b => Polymer.str_gt (name a) (name b) = false)
    (Polymer.with_id <$> [scoped LegacyOne; scoped LegacyTwo]) /\
  Forall (fun r => projectOrder r = None /\ other r = [("id", _id r)])
    (Polymer.with_id <$> [scoped LegacyOne; scoped LegacyTwo]).
Proof.
  apply (polymer_scoped_query_orders_by_name store_legacy (Some "P3")
           polymer_created).
  - reflexivity.
  - reflexivity.
Defined.

Lemma findIndex_replace_or_append (p : Request -> bool) key request items :
  (forall item, p item = String.eqb (_id item) key) ->
  (if Array_findIndex p items =? -1 then items ++ [request]
   else <[Z.to_nat (Array_findIndex p items) := request]> items)
  = replace_or_append key request items.
Proof.
  intros Hp. induction items as [|x rest IH]; simpl; [done|].
  rewrite Hp. destruct (String.eqb (_id x) key); [done|].
  pose proof (Array_findIndex_range p rest) as Hr.
  destruct (Z.eqb_spec (Array_findIndex p rest) (-1)) as [Heq|Hne]; simpl.
  - by rewrite <- IH.
  - destruct (Z.eqb_spec (Array_findIndex p rest + 1) (-1)); [lia|].
    rewrite <- IH. rewrite Z2Nat.inj_add by lia.
    rewrite Nat.add_comm. done.
Qed.

Lemma findIndex_never {A} (p : A -> bool) items :
  (forall item, p item = false) -> Array_findIndex p items = -1.
Proof.
  intros Hp. induction items as [|x rest IH]; simpl; [done|].
  by rewrite Hp, IH.
Qed.

Lemma polymer_prepareData_perm items :
  Polymer._prepareData items ≡ₚ Polymer.with_id <$> items.
Proof.
  unfold Polymer._prepareData. destruct items as [|x rest]; [done|].
  change (length (x :: rest) =? 0)%nat with false. cbv iota.
  by rewrite Array_sort_perm.
Qed.

(** X19.  The Polymer handler looks the changed record up by [oldId] alone,
    never by the record's own identifier: with an [oldId] the first entry
    under it is replaced, or the record appended when there is none; without
    an [oldId] the record is always appended, also when an entry with its
    identifier is listed.  The entries then get their [id] and are ordered. *)
Theorem polymer_changed_by_oldId (e : CustomEvent Changed.t) (st : Polymer.State)
  (items : list Request) :
  cancelable e = false ->
  truthy (legacyProject (Changed.request (detail e))) = true ->
  legacyProject (Changed.request (detail e)) = Polymer.projectId st ->
  Polymer.data st = Some items ->
  items <> [] ->
  exists items',
    Polymer.data (Polymer._requestObjectChanged e st) = Some items' /\
    items' ≡ₚ Polymer.with_id <$>
                match Changed.oldId (detail e) with
                | Some key => replace_or_append key (Changed.request (detail e)) items
                | None => items ++ [Changed.request (detail e)]
                end.
Proof.
  intros Hc Ht Hp Hdata Hne. unfold Polymer._requestObjectChanged.
  rewrite Hc, Ht, Hdata. rewrite bool_decide_eq_true_2 by done. simpl.
  destruct items as [|x rest]; [done|]. eexists. split; [reflexivity|].
  rewrite polymer_prepareData_perm. apply reflexive_eq. f_equal.
  destruct (Changed.oldId (detail e)) as [key|].
  - apply findIndex_replace_or_append. intros item.
    destruct (String.eqb_spec (_id item) key) as [->|Hk].
    + by apply bool_decide_eq_true_2.
    + apply bool_decide_eq_false_2. by intros [= ?].
  - by rewrite findIndex_never by done.
Qed.

Lemma polymer_changed_by_oldId_witness :
  exists items',
    Polymer.data (Polymer._requestObjectChanged beta_changed polymer_state)
    = Some items' /\
    items' ≡ₚ Polymer.with_id <$>
                [sample_request "r-beta" "Beta" (Some 2) (Some "P1");
                 sample_request "r-beta" "Beta two" (Some 2) (Some "P1")].
Proof.
  apply (polymer_changed_by_oldId beta_changed polymer_state
           [sample_request "r-beta" "Beta" (Some 2) (Some "P1")]).
  - reflexivity.
  - reflexivity.
  - reflexivity.
  - reflexivity.
  - discriminate.
Defined.

(** X20.  In the Polymer revision a failed lookup started by a [projectId]
    leaves [data] as it was: the element ends with [querying] false and an
    [error] event carrying the cause's message as its last event. *)
Theorem polymer_autoQuery_failure (db : PouchDB) (id : option string)
  (st : Polymer.State) (cause : Cause) :
  truthy id = true ->
  snd (Polymer.query db id st) = Rejected cause ->
  Polymer.data (Polymer._autoQuery db id st) = Polymer.data st /\
  Polymer.querying (Polymer._autoQuery db id st) = Some false /\
  last (Polymer.events (Polymer._autoQuery db id st))
  = Some (Polymer.error (message cause)).
Proof.
  intros Hid. unfold Polymer._autoQuery, Polymer.query. rewrite Hid. simpl.
  destruct (Polymer.query_chain _ _ _) as [requests|c]; simpl; [done|].
  intros [= ->].
  destruct (polymer_setQuerying_frame false (Polymer._setQuerying true st))
    as (_ & _ & -> & ->).
  destruct (polymer_setQuerying_frame true st) as (_ & _ & -> & _).
  split_and!; [done|done|]. by rewrite last_app.
Qed.

Lemma polymer_autoQuery_failure_witness :
  Polymer.data (Polymer._autoQuery (PouchDB_down not_found) (Some "P1")
                  polymer_state)
  = Polymer.data polymer_state /\
  Polymer.querying (Polymer._autoQuery (PouchDB_down not_found) (Some "P1")
                      polymer_state) = Some false /\
  last (Polymer.events (Polymer._autoQuery (PouchDB_down not_found) (Some "P1")
                          polymer_state))
  = Some (Polymer.error (message not_found)).
Proof.
  apply (polymer_autoQuery_failure (PouchDB_down not_found) (Some "P1")
           polymer_state not_found).
  - reflexivity.
  - reflexivity.
Defined.

Lemma polymer_splice_loop ids n :
  forall st items,
    Polymer.data st = Some items -> (n <= length items)%nat ->
    Polymer.data (Polymer.splice_loop ids n st)
    = Some (remaining ids (take n items) ++ drop n items) /\
    Polymer.projectId (Polymer.splice_loop ids n st) = Polymer.projectId st /\
    Polymer.fullQuery (Polymer.splice_loop ids n st) = Polymer.fullQuery st /\
    Polymer.querying (Polymer.splice_loop ids n st) = Polymer.querying st /\
    exists evs,
      Polymer.events (Polymer.splice_loop ids n st) = Polymer.events st ++ evs /\
      (length evs + length (remaining ids (take n items)) = n)%nat.
Proof.
  induction n as [|i IH]; intros st items Hdata Hn.
  - simpl. rewrite drop_0. split_and!; try done.
    exists []. by rewrite app_nil_r.
  - destruct (lookup_lt_is_Some_2 items i) as [it Hit]; [lia|].
    simpl. rewrite Hdata. simpl. rewrite Hit, lnot_indexOf_member.
    rewrite (take_S_r _ _ _ Hit). unfold remaining.
    rewrite List.filter_app. simpl.
    assert (length (take i items) = i) as Hlen by (rewrite length_take; lia).
    destruct (bool_decide (_id it ∈ ids)) eqn:Hmem; simpl.
    + unfold Polymer.splice. rewrite Hdata. simpl. rewrite Hit.
      edestruct (IH (Polymer.dispatch [Polymer.data_spliced i it]
                       {| Polymer.projectId := Polymer.projectId st;
                          Polymer.fullQuery := Polymer.fullQuery st;
                          Polymer.data := Some (delete i items);
                          Polymer.querying := Polymer.querying st;
                          Polymer.events := Polymer.events st |})
                    (delete i items))
        as (Hd & Hp & Hf & Hq & evs & Hev & Hcount).
      { done. }
      { rewrite delete_take_drop, length_app, Hlen, length_drop. lia. }
      rewrite Hd, Hp, Hf, Hq, Hev. simpl.
      rewrite delete_take_drop in Hcount |- *.
      rewrite take_app_length', drop_app_length' in * by done.
      rewrite app_nil_r. split_and!; try done.
      exists (Polymer.data_spliced i it :: evs). rewrite <- app_assoc.
      split; [done|]. unfold remaining in Hcount. simpl. lia.
    + destruct (IH st items Hdata) as (Hd & Hp & Hf & Hq & evs & Hev & Hcount);
        [lia|].
      rewrite Hd, Hp, Hf, Hq, Hev. unfold remaining in *.
      rewrite <- app_assoc. simpl. rewrite (drop_S _ _ _ Hit).
      split_and!; try done. exists evs. split; [done|].
      rewrite length_app. simpl. lia.
Qed.

(** X21.  The Polymer deletion removes what the LitElement one removes: [data]
    becomes its entries whose identifier is not among [ids], in their order,
    by one [splice] for every entry removed; an absent [data] stays absent,
    and no other property changes. *)
Theorem polymer_checkDeleted_remaining (ids : list string) (st : Polymer.State) :
  Polymer.data (Polymer._checkDeleted ids st) = remaining ids <$> Polymer.data st /\
  Polymer.projectId (Polymer._checkDeleted ids st) = Polymer.projectId st /\
  Polymer.fullQuery (Polymer._checkDeleted ids st) = Polymer.fullQuery st /\
  Polymer.querying (Polymer._checkDeleted ids st) = Polymer.querying st /\
  exists evs,
    Polymer.events (Polymer._checkDeleted ids st) = Polymer.events st ++ evs /\
    (length evs + length (default [] (Polymer.data (Polymer._checkDeleted ids st)))
     = length (default [] (Polymer.data st)))%nat.
Proof.
  unfold Polymer._checkDeleted. destruct (Polymer.data st) as [items|] eqn:Hdata.
  - destruct items as [|x rest] eqn:Hitems.
    + simpl. rewrite Hdata. split_and!; try done. exists []. by rewrite app_nil_r.
    + rewrite <- Hitems in *.
      replace (length items =? 0)%nat with false by by rewrite Hitems.
      destruct (polymer_splice_loop ids (length items) st items Hdata)
        as (Hd & Hp & Hf & Hq & evs & Hev & Hcount); [done|].
      rewrite take_ge, drop_all, app_nil_r in * by done.
      rewrite Hd. split_and!; try done. exists evs. split; [done|].
      simpl. done.
  - rewrite Hdata. split_and!; try done. exists []. by rewrite app_nil_r.
Qed.

(** ** The store mock of the tests *)

(** X22.  In the store mock, [allDocs] lists one row for every request, in
    order, and [get] resolves an identifier to the first request that has it:
    every listed identifier is resolved, to a request of the mock with that
    identifier, and an identifier that is not listed resolves to nothing. *)
Theorem mock_get_resolves_listed (requests : list Request) (id : string) :
  exists rs,
    PouchDbMock.allDocs requests = Resolved (mkResponse (Some rs)) /\
    Row.id <$> rs = _id <$> requests /\
    match PouchDbMock.get requests id with
    | Some r => _id r = id /\ r ∈ requests /\ id ∈ Row.id <$> rs
    | None => id ∉ Row.id <$> rs
    end.
Proof.
  eexists. split; [reflexivity|]. rewrite <- list_fmap_compose.
  split; [done|]. unfold PouchDbMock.get.
  destruct (List.find _ requests) as [r|] eqn:Hfind.
  - apply find_some in Hfind as [Hin Heq%String.eqb_eq].
    apply list_elem_of_In in Hin. split_and!; [done|done|].
    rewrite <- Heq. by apply (list_elem_of_fmap_2 (_id : Request -> string)).
  - intros (r & -> & Hin)%list_elem_of_fmap.
    apply list_elem_of_In in Hin.
    pose proof (find_none _ _ Hfind r Hin) as Hr. simpl in Hr.
    by rewrite String.eqb_refl in Hr.
Qed.
